(** * Luxo-Jr: the phase selector [TorqueToPD] and the control loop [main]

    A shallow embedding of [luxojr/luxojr.py].

    Numbers.  The script computes with Python floats.  They are modelled by
    exact rationals [Q]: every comparison of the script is a comparison of
    [Q], and [0.99 * x + 0.01 * y] is exact.  Rounding is outside the model.
    So are, over [Q], the infinities and NaN; for the selector, which only
    compares and copies, they are taken up in [PyFloat].

    Effects.  [main] talks to three collaborators: the wall clock
    ([time.time()]), the actuator ([c.set_stop()], [c.set_position(...)]),
    and the console and the pickle file.  A [World] holds the script of the
    environment (the clock readings and actuator replies still to come), the
    chronological trace of everything the program has done, and the
    module-level list [data]. *)

From Stdlib Require Import ZArith QArith Qabs Qpower Qfield List Bool Arith Lia.
Import ListNotations.

Open Scope Q_scope.

(** ** Comparison of numbers *)

(** Python's [a < b] on numbers. *)
Definition Qltb (a b : Q) : bool := negb (Qle_bool b a).

Infix "<?" := Qltb (at level 70, no associativity) : Q_scope.

(** ** The actuator interface *)

Module Moteus.

(** The keyword arguments of one [controller.set_position(...)] call.  An
    argument the call site does not pass is [None]. *)
Record PositionCommand : Type := {
  position : option Q;
  kp_scale : option Q;
  kd_scale : option Q;
  maximum_torque : option Q;
  feedforward_torque : option Q;
  query : bool
}.

(** What a query returns: the POSITION register, read by [main], and the
    other registers, which the script only stores. *)
Record State : Type := {
  POSITION : Q;
  registers : list (nat * Q)
}.

End Moteus.

(** An error raised by the transport while talking to the actuator. *)
Inductive Exn : Type :=
| TransportError (code : nat).

(** How the actuator answers one exchange. *)
Inductive Reply : Type :=
| Reply_ok (s : Moteus.State)
| Reply_err (e : Exn).

(** One element of [data]: [(time_since_start, state)]. *)
Definition Sample : Type := (Q * Moteus.State)%type.

(** What the program does to the outside, in order. *)
Inductive Event : Type :=
| EvStop
| EvSetPosition (cmd : Moteus.PositionCommand)
| EvPrint (pos dt dt_filtered : Q)
| EvDump (blob : list Sample).

Record World : Type := {
  clock : list Q;
  bus : list Reply;
  trace : list Event;
  data : list Sample
}.

(** ** Computations *)

(** [Starved] is not a behaviour of the script: it says that the world's
    script ended before the program did. *)
Inductive Outcome (A : Type) : Type :=
| Done (a : A)
| Raised (e : Exn)
| Starved.

Arguments Done {A} a.
Arguments Raised {A} e.
Arguments Starved {A}.

Definition M (A : Type) : Type := World -> Outcome A * World.

Definition ret {A} (a : A) : M A := fun w => (Done a, w).

Definition bind {A B} (m : M A) (k : A -> M B) : M B :=
  fun w =>
    match m w with
    | (Done a, w') => k a w'
    | (Raised e, w') => (Raised e, w')
    | (Starved, w') => (Starved, w')
    end.

Notation "x <- m ;; k" := (bind m (fun x => k))
  (at level 61, m at next level, right associativity).
Notation "m ;;; k" := (bind m (fun _ => k))
  (at level 61, right associativity).

(** [try: body finally: handler].  The handler runs whether the body
    returned or raised; an error of the handler replaces the pending
    outcome. *)
Definition try_finally {A} (body : M A) (handler : M unit) : M A :=
  fun w =>
    match body w with
    | (Starved, w') => (Starved, w')
    | (o, w') =>
        match handler w' with
        | (Done _, w'') => (o, w'')
        | (Raised e, w'') => (Raised e, w'')
        | (Starved, w'') => (Starved, w'')
        end
    end.

Definition emit (e : Event) (w : World) : World :=
  {| clock := clock w; bus := bus w; trace := trace w ++ [e]; data := data w |}.

(** [time.time()] *)
Definition time_time : M Q :=
  fun w =>
    match clock w with
    | [] => (Starved, w)
    | t :: ts =>
        (Done t, {| clock := ts; bus := bus w; trace := trace w; data := data w |})
    end.

(** One request/response exchange: the request goes out, then the actuator
    answers or the transport raises. *)
Definition exchange (e : Event) : M Moteus.State :=
  fun w =>
    let w1 := emit e w in
    match bus w with
    | [] => (Starved, w1)
    | r :: rs =>
        let w2 := {| clock := clock w1; bus := rs; trace := trace w1; data := data w1 |} in
        match r with
        | Reply_ok s => (Done s, w2)
        | Reply_err x => (Raised x, w2)
        end
    end.

(** [await c.set_stop()] *)
Definition set_stop : M unit := exchange EvStop ;;; ret tt.

(** [await controller.set_position(...)] *)
Definition set_position (cmd : Moteus.PositionCommand) : M Moteus.State :=
  exchange (EvSetPosition cmd).

(** [data.append(x)] *)
Definition data_append (x : Sample) : M unit :=
  fun w =>
    (Done tt,
     {| clock := clock w; bus := bus w; trace := trace w; data := data w ++ [x] |}).

(** [print(f"Position: ... dt: ... dt_filtered: ...")] *)
Definition print (pos dt dt_filtered : Q) : M unit :=
  fun w => (Done tt, emit (EvPrint pos dt dt_filtered) w).

(** [with open("log.pickle", "wb+") as f: pickle.dump(data, f)] *)
Definition pickle_dump : M unit :=
  fun w => (Done tt, emit (EvDump (data w)) w).

(** ** class TorqueToPD *)

Record TorqueToPD : Type := {
  t_begin : Q;
  t_reset : Q;
  pd_begin : Q;
  pd_target : Q;
  torque : Q;
  kp_scale : Q;
  kd_scale : Q;
  maximum_torque : Q;
  reset_torque : Q;
  past_pd_threshold : bool;
  termination_time : Q
}.

(** The arguments of [TorqueToPD.__init__] (the controller apart). *)
Record InitArgs : Type := {
  arg_t_begin : Q;
  arg_t_reset : Q;
  arg_pd_begin : Q;
  arg_pd_target : Q;
  arg_torque : Q;
  arg_kp_scale : Q;
  arg_kd_scale : Q;
  arg_maximum_torque : Q;
  arg_termination_time : Q;
  arg_reset_torque : Q
}.

(** The defaults of the keyword parameters of [__init__]. *)
Definition default_kp_scale : Q := 1.0.
Definition default_kd_scale : Q := 1.0.
Definition default_maximum_torque : Q := 1.0.
Definition default_termination_time : Q := 1.0.
Definition default_reset_torque : Q := 0.2.

(** [TorqueToPD.__init__] *)
Definition TorqueToPD_init (a : InitArgs) : TorqueToPD :=
  {| t_begin := arg_t_begin a;
     t_reset := arg_t_reset a;
     pd_begin := arg_pd_begin a;
     pd_target := arg_pd_target a;
     torque := arg_torque a;
     kp_scale := arg_kp_scale a;
     kd_scale := arg_kd_scale a;
     maximum_torque := arg_maximum_torque a;
     reset_torque := arg_reset_torque a;
     past_pd_threshold := false;
     termination_time := arg_termination_time a |}.

(** [self.past_pd_threshold = b] *)
Definition set_past_pd_threshold (self : TorqueToPD) (b : bool) : TorqueToPD :=
  {| t_begin := t_begin self;
     t_reset := t_reset self;
     pd_begin := pd_begin self;
     pd_target := pd_target self;
     torque := torque self;
     kp_scale := kp_scale self;
     kd_scale := kd_scale self;
     maximum_torque := maximum_torque self;
     reset_torque := reset_torque self;
     past_pd_threshold := b;
     termination_time := termination_time self |}.

(** The four argument lists of [__call__], in the order of its branches. *)
Definition hold_zero (self : TorqueToPD) : Moteus.PositionCommand :=
  {| Moteus.position := Some 0.0;
     Moteus.kp_scale := Some (kp_scale self);
     Moteus.kd_scale := Some (kd_scale self);
     Moteus.maximum_torque := Some (maximum_torque self);
     Moteus.feedforward_torque := None;
     Moteus.query := true |}.

Definition feedforward_push (self : TorqueToPD) : Moteus.PositionCommand :=
  {| Moteus.position := None;
     Moteus.kp_scale := Some 0.0;
     Moteus.kd_scale := Some 0.0;
     Moteus.maximum_torque := Some (maximum_torque self);
     Moteus.feedforward_torque := Some (torque self);
     Moteus.query := true |}.

Definition position_target (self : TorqueToPD) : Moteus.PositionCommand :=
  {| Moteus.position := Some (pd_target self);
     Moteus.kp_scale := Some (kp_scale self);
     Moteus.kd_scale := Some (kd_scale self);
     Moteus.maximum_torque := Some (maximum_torque self);
     Moteus.feedforward_torque := None;
     Moteus.query := true |}.

Definition torque_limited_reset (self : TorqueToPD) : Moteus.PositionCommand :=
  {| Moteus.position := Some 0;
     Moteus.kp_scale := Some (kp_scale self);
     Moteus.kd_scale := Some (kd_scale self);
     Moteus.maximum_torque := Some (reset_torque self);
     Moteus.feedforward_torque := None;
     Moteus.query := true |}.

(** The [if]/[elif] chain of [__call__]: the object after the call and the
    command the chosen branch sends. *)
Definition TorqueToPD_select (self : TorqueToPD) (pos t : Q)
  : TorqueToPD * Moteus.PositionCommand :=
  if t <? t_begin self then
    (self, hold_zero self)
  else if (pos <? pd_begin self) && negb (past_pd_threshold self) then
    (self, feedforward_push self)
  else if t <? t_reset self then
    let self' := set_past_pd_threshold self true in
    (self', position_target self')
  else
    (self, torque_limited_reset self).

(** [TorqueToPD.__call__]: the chosen command is sent and the actuator's
    answer returned.  When the exchange raises, no object comes back: [main]
    does not use the selector again after an error.  (In the script the
    third branch has set the latch by then.) *)
Definition TorqueToPD_call (self : TorqueToPD) (pos t : Q)
  : M (Moteus.State * TorqueToPD) :=
  let '(self', cmd) := TorqueToPD_select self pos t in
  state <- set_position cmd ;;
  ret (state, self').

(** The object after a series of calls, each with its [(pos, t)]. *)
Definition after_calls (self : TorqueToPD) (inputs : list (Q * Q)) : TorqueToPD :=
  fold_left (fun s i => fst (TorqueToPD_select s (fst i) (snd i))) inputs self.

(** ** main *)

(** The constructor arguments written in [main]; the keyword parameters it
    leaves out take their defaults. *)
Definition main_args : InitArgs :=
  {| arg_t_begin := 0.4;
     arg_t_reset := 0.8;
     arg_pd_begin := 2.0;
     arg_pd_target := 2.5;
     arg_torque := 1.5;
     arg_kp_scale := default_kp_scale;
     arg_kd_scale := default_kd_scale;
     arg_maximum_torque := 1.5;
     arg_termination_time := 1.2;
     arg_reset_torque := default_reset_torque |}.

(** The local variables of [main] that live across iterations. *)
Record Locals : Type := {
  dt_filtered : Q;
  last_time : Q;
  timestamp_begin_loop : Q;
  last_position : Q;
  torque_to_pd : TorqueToPD
}.

(** [dt_filtered = 0.99 * dt_filtered + 0.01 * dt] *)
Definition filter_update (dt_filtered dt : Q) : Q :=
  0.99 * dt_filtered + 0.01 * dt.

(** The body of [while True:].  [None] is the [return]; [Some l] the locals
    with which the next iteration starts. *)
Definition loop_body (l : Locals) : M (option Locals) :=
  loop_start <- time_time ;;
  let time_since_start := loop_start - timestamp_begin_loop l in
  let dt := loop_start - last_time l in
  let dt_filtered' := filter_update (dt_filtered l) dt in
  r <- TorqueToPD_call (torque_to_pd l) (last_position l) time_since_start ;;
  let '(state, torque_to_pd') := r in
  let last_position' := Moteus.POSITION state in
  data_append (time_since_start, state) ;;;
  print (Moteus.POSITION state) dt dt_filtered' ;;;
  if termination_time torque_to_pd' <? time_since_start then
    ret None
  else
    ret (Some {| dt_filtered := dt_filtered';
                 last_time := loop_start;
                 timestamp_begin_loop := timestamp_begin_loop l;
                 last_position := last_position';
                 torque_to_pd := torque_to_pd' |}).

(** [while True:] unfolded [fuel] times. *)
Fixpoint while_true (fuel : nat) (l : Locals) : M unit :=
  match fuel with
  | O => fun w => (Starved, w)
  | S fuel' =>
      r <- loop_body l ;;
      match r with
      | None => ret tt
      | Some l' => while_true fuel' l'
      end
  end.

(** Every iteration starts by reading the clock, so the loop cannot go round
    more often than the world has readings left: that many unfoldings are
    all of them. *)
Definition loop (l : Locals) : M unit :=
  fun w => while_true (length (clock w)) l w.

(** The [try:] block of [main], for the constructor arguments [a]. *)
Definition main_try (a : InitArgs) : M unit :=
  set_stop ;;;
  let dt_filtered0 := 0 in
  last_time0 <- time_time ;;
  timestamp_begin_loop0 <- time_time ;;
  let last_position0 := 0.0 in
  let torque_to_pd0 := TorqueToPD_init a in
  loop {| dt_filtered := dt_filtered0;
          last_time := last_time0;
          timestamp_begin_loop := timestamp_begin_loop0;
          last_position := last_position0;
          torque_to_pd := torque_to_pd0 |}.

(** The [finally:] block of [main]. *)
Definition main_finally : M unit :=
  set_stop ;;;
  pickle_dump.

(** [main], with the constructor arguments as a parameter. *)
Definition main_with (a : InitArgs) : M unit :=
  try_finally (main_try a) main_finally.

Definition main : M unit := main_with main_args.

(** The world in which the script starts: nothing done yet, [data = []]. *)
Definition fresh (ticks : list Q) (replies : list Reply) : World :=
  {| clock := ticks; bus := replies; trace := []; data := [] |}.

(** ** Reading a trace *)

Definition is_command (e : Event) : bool :=
  match e with EvSetPosition _ => true | _ => false end.

(** How many [set_position] requests went out. *)
Definition commands (tr : list Event) : nat := length (filter is_command tr).

(** The blobs handed to the pickle file. *)
Fixpoint flushes (tr : list Event) : list (list Sample) :=
  match tr with
  | [] => []
  | EvDump blob :: tr' => blob :: flushes tr'
  | _ :: tr' => flushes tr'
  end.

(** The [(dt, dt_filtered)] pairs of the printed lines. *)
Fixpoint periods (tr : list Event) : list (Q * Q) :=
  match tr with
  | [] => []
  | EvPrint _ dt f :: tr' => (dt, f) :: periods tr'
  | _ :: tr' => periods tr'
  end.

(** The printed filtered periods follow the update rule from [f0] on. *)
Fixpoint filtered_from (f0 : Q) (ps : list (Q * Q)) : Prop :=
  match ps with
  | [] => True
  | (dt, f) :: ps' => f = filter_update f0 dt /\ filtered_from f ps'
  end.

(** ** Auxiliary definitions for the statements and proofs *)

(** A call changes nothing of the object but the latch. *)
Definition same_config (s s' : TorqueToPD) : Prop :=
  set_past_pd_threshold s' true = set_past_pd_threshold s true.

(** The inputs that open the third branch while the latch is still clear. *)
Definition crossing (s : TorqueToPD) (i : Q * Q) : Prop :=
  t_begin s <= snd i /\ snd i < t_reset s /\ pd_begin s <= fst i.

(** A state, for the examples. *)
Definition at_position (p : Q) : Moteus.State :=
  {| Moteus.POSITION := p; Moteus.registers := [] |}.

(** What the locals become when the loop goes round. *)
Definition next_locals (l : Locals) (loop_start : Q) (state : Moteus.State) : Locals :=
  {| dt_filtered := filter_update (dt_filtered l) (loop_start - last_time l);
     last_time := loop_start;
     timestamp_begin_loop := timestamp_begin_loop l;
     last_position := Moteus.POSITION state;
     torque_to_pd :=
       fst (TorqueToPD_select (torque_to_pd l) (last_position l)
              (loop_start - timestamp_begin_loop l)) |}.

(** The command an iteration sends when the clock reads [loop_start]. *)
Definition iteration_command (l : Locals) (loop_start : Q) : Moteus.PositionCommand :=
  snd (TorqueToPD_select (torque_to_pd l) (last_position l)
         (loop_start - timestamp_begin_loop l)).

(** The two events of an iteration that got its answer. *)
Definition iteration_events (l : Locals) (loop_start : Q) (state : Moteus.State)
  : list Event :=
  [EvSetPosition (iteration_command l loop_start);
   EvPrint (Moteus.POSITION state) (loop_start - last_time l)
     (filter_update (dt_filtered l) (loop_start - last_time l))].

(** What every run of the loop does to the world, however it ends: it
    appends [set_position] requests and printed lines to the trace and
    samples to [data], one sample for each request that was answered; it
    never writes the pickle file; the printed filtered periods follow the
    update rule; and an error it raises is one the actuator gave. *)
Definition loop_post (f0 : Q) (w : World) (r : Outcome unit * World) : Prop :=
  exists (evs : list Event) (samples : list Sample),
    trace (snd r) = trace w ++ evs
    /\ data (snd r) = data w ++ samples
    /\ flushes evs = []
    /\ (exists answers, bus w = answers ++ bus (snd r))
    /\ filtered_from f0 (periods evs)
    /\ match fst r with
       | Done _ => commands evs = length samples
       | Raised e => commands evs = S (length samples) /\ In (Reply_err e) (bus w)
       | Starved => True
       end.

(** The locals with which [main] enters the loop. *)
Definition initial_locals (a : InitArgs) (last_time0 begin0 : Q) : Locals :=
  {| dt_filtered := 0;
     last_time := last_time0;
     timestamp_begin_loop := begin0;
     last_position := 0.0;
     torque_to_pd := TorqueToPD_init a |}.

(** What the [try] block does to the world, however it ends. *)
Definition main_try_post (w : World) (r : Outcome unit * World) : Prop :=
  exists (evs : list Event) (samples : list Sample),
    trace (snd r) = trace w ++ EvStop :: evs
    /\ data (snd r) = data w ++ samples
    /\ flushes evs = []
    /\ (exists answers, bus w = answers ++ bus (snd r))
    /\ filtered_from 0 (periods evs)
    /\ match fst r with
       | Done _ => commands evs = length samples
       | Raised e => length samples = (commands evs - 1)%nat
                     /\ In (Reply_err e) (bus w)
       | Starved => True
       end.

(** The invariant the specification puts on a configuration:
    [0 <= t_begin <= t_reset <= termination_time] and [maximum_torque > 0]. *)
Definition config_invariant (a : InitArgs) : Prop :=
  0 <= arg_t_begin a
  /\ arg_t_begin a <= arg_t_reset a
  /\ arg_t_reset a <= arg_termination_time a
  /\ 0 < arg_maximum_torque a.

(** A configuration that breaks it twice: [t_begin > t_reset], and
    [maximum_torque = 0]. *)
Definition inverted_args : InitArgs :=
  {| arg_t_begin := 0.8;
     arg_t_reset := 0.4;
     arg_pd_begin := 2.0;
     arg_pd_target := 2.5;
     arg_torque := 1.5;
     arg_kp_scale := default_kp_scale;
     arg_kd_scale := default_kd_scale;
     arg_maximum_torque := 0;
     arg_termination_time := 1.2;
     arg_reset_torque := default_reset_torque |}.

(** The configuration of [main], but for a push that starts at once. *)
Definition immediate_args : InitArgs :=
  {| arg_t_begin := 0;
     arg_t_reset := 0.8;
     arg_pd_begin := 2.0;
     arg_pd_target := 2.5;
     arg_torque := 1.5;
     arg_kp_scale := default_kp_scale;
     arg_kd_scale := default_kd_scale;
     arg_maximum_torque := 1.5;
     arg_termination_time := 1.2;
     arg_reset_torque := default_reset_torque |}.

(** ** move_waypoints *)

(** The keyword parameters of [move_waypoints]. *)
Record Waypoints : Type := {
  wp_kp_scale : Q;
  wp_kd_scale : Q;
  wp_maximum_torque : Q;
  POS_0 : Q;
  TIME_1 : Q;
  POS_1 : Q;
  TIME_2 : Q;
  POS_END : Q
}.

(** Their defaults. *)
Definition default_waypoints : Waypoints :=
  {| wp_kp_scale := 0.3;
     wp_kd_scale := 0.008;
     wp_maximum_torque := 1.0;
     POS_0 := 0.0;
     TIME_1 := 1.0;
     POS_1 := 3.0;
     TIME_2 := 2.0;
     POS_END := 0.0 |}.

(** The value of [pos_command] after the [if]/[elif]/[else] of
    [move_waypoints]. *)
Definition pos_command (k : Waypoints) (t : Q) : Q :=
  if t <? TIME_1 k then POS_0 k
  else if t <? TIME_2 k then POS_1 k
  else POS_END k.

(** [move_waypoints(c, t, ...)].  The call passes neither a feedforward
    torque nor [query]; for [query] the record holds the default of the
    actuator interface, [False]. *)
Definition move_waypoints (k : Waypoints) (t : Q) : M Moteus.State :=
  set_position
    {| Moteus.position := Some (pos_command k t);
       Moteus.kp_scale := Some (wp_kp_scale k);
       Moteus.kd_scale := Some (wp_kd_scale k);
       Moteus.maximum_torque := Some (wp_maximum_torque k);
       Moteus.feedforward_torque := None;
       Moteus.query := false |}.

(** ** More ways to read a run *)

Definition is_stop (e : Event) : bool :=
  match e with EvStop => true | _ => false end.

(** How many stop requests went out. *)
Definition stops (tr : list Event) : nat := length (filter is_stop tr).

(** The differences between successive clock readings, the first one taken
    from [prev]. *)
Fixpoint diffs (prev : Q) (ts : list Q) : list Q :=
  match ts with
  | [] => []
  | t :: ts' => (t - prev) :: diffs t ts'
  end.

(** The commands of a trace, in order. *)
Fixpoint sent (tr : list Event) : list Moteus.PositionCommand :=
  match tr with
  | [] => []
  | EvSetPosition cmd :: tr' => cmd :: sent tr'
  | _ :: tr' => sent tr'
  end.

(** The positions of the printed lines. *)
Fixpoint positions (tr : list Event) : list Q :=
  match tr with
  | [] => []
  | EvPrint pos _ _ :: tr' => pos :: positions tr'
  | _ :: tr' => positions tr'
  end.

(** A command that asks for the state and whose torque limit is one of the
    two of the configuration. *)
Definition within_limits (a : InitArgs) (cmd : Moteus.PositionCommand) : Prop :=
  Moteus.query cmd = true
  /\ (Moteus.maximum_torque cmd = Some (arg_maximum_torque a)
      \/ Moteus.maximum_torque cmd = Some (arg_reset_torque a)).

(** ** The selector on floats, NaN and the infinities included

    [Q] has no NaN, and on a NaN every comparison of the script is false.
    [__call__] only compares its numbers and copies them, so what matters of
    a float is how it compares: as a rational, as an infinity, or not at
    all.  Here the chain of [__call__] is written once more over such
    numbers. *)

Module PyFloat.

Inductive number : Type :=
| NaN
| NegInf
| Fin (q : Q)
| PosInf.

(** Python's [a < b] on floats: false as soon as one side is NaN. *)
Definition ltb (a b : number) : bool :=
  match a with
  | NaN => false
  | NegInf => match b with Fin _ | PosInf => true | _ => false end
  | Fin x => match b with Fin y => x <? y | PosInf => true | _ => false end
  | PosInf => false
  end.

(** Python's [a <= b] on floats; [a >= b] is [leb b a]. *)
Definition leb (a b : number) : bool :=
  match a with
  | NaN => false
  | NegInf => match b with NaN => false | _ => true end
  | Fin x => match b with Fin y => Qle_bool x y | PosInf => true | _ => false end
  | PosInf => match b with PosInf => true | _ => false end
  end.

Module Moteus.

Record PositionCommand : Type := {
  position : option number;
  kp_scale : option number;
  kd_scale : option number;
  maximum_torque : option number;
  feedforward_torque : option number;
  query : bool
}.

End Moteus.

Record TorqueToPD : Type := {
  t_begin : number;
  t_reset : number;
  pd_begin : number;
  pd_target : number;
  torque : number;
  kp_scale : number;
  kd_scale : number;
  maximum_torque : number;
  reset_torque : number;
  past_pd_threshold : bool;
  termination_time : number
}.

Record InitArgs : Type := {
  arg_t_begin : number;
  arg_t_reset : number;
  arg_pd_begin : number;
  arg_pd_target : number;
  arg_torque : number;
  arg_kp_scale : number;
  arg_kd_scale : number;
  arg_maximum_torque : number;
  arg_termination_time : number;
  arg_reset_torque : number
}.

(** [TorqueToPD.__init__] *)
Definition TorqueToPD_init (a : InitArgs) : TorqueToPD :=
  {| t_begin := arg_t_begin a;
     t_reset := arg_t_reset a;
     pd_begin := arg_pd_begin a;
     pd_target := arg_pd_target a;
     torque := arg_torque a;
     kp_scale := arg_kp_scale a;
     kd_scale := arg_kd_scale a;
     maximum_torque := arg_maximum_torque a;
     reset_torque := arg_reset_torque a;
     past_pd_threshold := false;
     termination_time := arg_termination_time a |}.

(** [self.past_pd_threshold = b] *)
Definition set_past_pd_threshold (self : TorqueToPD) (b : bool) : TorqueToPD :=
  {| t_begin := t_begin self;
     t_reset := t_reset self;
     pd_begin := pd_begin self;
     pd_target := pd_target self;
     torque := torque self;
     kp_scale := kp_scale self;
     kd_scale := kd_scale self;
     maximum_torque := maximum_torque self;
     reset_torque := reset_torque self;
     past_pd_threshold := b;
     termination_time := termination_time self |}.

(** The [if]/[elif] chain of [__call__]: the object after the call and the
    command the chosen branch sends. *)
Definition TorqueToPD_select (self : TorqueToPD) (pos t : number)
  : TorqueToPD * Moteus.PositionCommand :=
  if ltb t (t_begin self) then
    (self,
     {| Moteus.position := Some (Fin 0.0);
        Moteus.kp_scale := Some (kp_scale self);
        Moteus.kd_scale := Some (kd_scale self);
        Moteus.maximum_torque := Some (maximum_torque self);
        Moteus.feedforward_torque := None;
        Moteus.query := true |})
  else if ltb pos (pd_begin self) && negb (past_pd_threshold self) then
    (self,
     {| Moteus.position := None;
        Moteus.kp_scale := Some (Fin 0.0);
        Moteus.kd_scale := Some (Fin 0.0);
        Moteus.maximum_torque := Some (maximum_torque self);
        Moteus.feedforward_torque := Some (torque self);
        Moteus.query := true |})
  else if ltb t (t_reset self) then
    let self' := set_past_pd_threshold self true in
    (self',
     {| Moteus.position := Some (pd_target self');
        Moteus.kp_scale := Some (kp_scale self');
        Moteus.kd_scale := Some (kd_scale self');
        Moteus.maximum_torque := Some (maximum_torque self');
        Moteus.feedforward_torque := None;
        Moteus.query := true |})
  else
    (self,
     {| Moteus.position := Some (Fin 0);
        Moteus.kp_scale := Some (kp_scale self);
        Moteus.kd_scale := Some (kd_scale self);
        Moteus.maximum_torque := Some (reset_torque self);
        Moteus.feedforward_torque := None;
        Moteus.query := true |}).

(** The object after a series of calls, each with its [(pos, t)]. *)
Definition after_calls (self : TorqueToPD) (inputs : list (number * number))
  : TorqueToPD :=
  fold_left (fun s i => fst (TorqueToPD_select s (fst i) (snd i))) inputs self.

End PyFloat.

(** The rationals among the floats: arguments, objects and commands. *)
Definition float_args (a : InitArgs) : PyFloat.InitArgs :=
  {| PyFloat.arg_t_begin := PyFloat.Fin (arg_t_begin a);
     PyFloat.arg_t_reset := PyFloat.Fin (arg_t_reset a);
     PyFloat.arg_pd_begin := PyFloat.Fin (arg_pd_begin a);
     PyFloat.arg_pd_target := PyFloat.Fin (arg_pd_target a);
     PyFloat.arg_torque := PyFloat.Fin (arg_torque a);
     PyFloat.arg_kp_scale := PyFloat.Fin (arg_kp_scale a);
     PyFloat.arg_kd_scale := PyFloat.Fin (arg_kd_scale a);
     PyFloat.arg_maximum_torque := PyFloat.Fin (arg_maximum_torque a);
     PyFloat.arg_termination_time := PyFloat.Fin (arg_termination_time a);
     PyFloat.arg_reset_torque := PyFloat.Fin (arg_reset_torque a) |}.

Definition float_object (s : TorqueToPD) : PyFloat.TorqueToPD :=
  {| PyFloat.t_begin := PyFloat.Fin (t_begin s);
     PyFloat.t_reset := PyFloat.Fin (t_reset s);
     PyFloat.pd_begin := PyFloat.Fin (pd_begin s);
     PyFloat.pd_target := PyFloat.Fin (pd_target s);
     PyFloat.torque := PyFloat.Fin (torque s);
     PyFloat.kp_scale := PyFloat.Fin (kp_scale s);
     PyFloat.kd_scale := PyFloat.Fin (kd_scale s);
     PyFloat.maximum_torque := PyFloat.Fin (maximum_torque s);
     PyFloat.reset_torque := PyFloat.Fin (reset_torque s);
     PyFloat.past_pd_threshold := past_pd_threshold s;
     PyFloat.termination_time := PyFloat.Fin (termination_time s) |}.

Definition float_command (c : Moteus.PositionCommand)
  : PyFloat.Moteus.PositionCommand :=
  {| PyFloat.Moteus.position := option_map PyFloat.Fin (Moteus.position c);
     PyFloat.Moteus.kp_scale := option_map PyFloat.Fin (Moteus.kp_scale c);
     PyFloat.Moteus.kd_scale := option_map PyFloat.Fin (Moteus.kd_scale c);
     PyFloat.Moteus.maximum_torque :=
       option_map PyFloat.Fin (Moteus.maximum_torque c);
     PyFloat.Moteus.feedforward_torque :=
       option_map PyFloat.Fin (Moteus.feedforward_torque c);
     PyFloat.Moteus.query := Moteus.query c |}.

(** * Properties *)

(** ** Comparisons *)

Lemma Qltb_lt (a b : Q) : (a <? b) = true <-> a < b.
Proof.
  unfold Qltb. rewrite negb_true_iff.
  split; intro H.
  - apply Qnot_le_lt. intro Hle. apply Qle_bool_iff in Hle. congruence.
  - destruct (Qle_bool b a) eqn:E; [|reflexivity].
    apply Qle_bool_iff in E. exfalso. exact (Qlt_not_le _ _ H E).
Qed.

Lemma Qltb_ge (a b : Q) : (a <? b) = false <-> b <= a.
Proof.
  unfold Qltb. rewrite negb_false_iff. apply Qle_bool_iff.
Qed.

(** ** The selector, branch by branch *)

Section Selector.

Variable self : TorqueToPD.
Variables pos t : Q.

Lemma select_hold_zero :
  t < t_begin self ->
  TorqueToPD_select self pos t = (self, hold_zero self).
Proof.
  intro H. unfold TorqueToPD_select.
  apply Qltb_lt in H. now rewrite H.
Qed.

Lemma select_feedforward_push :
  t_begin self <= t -> pos < pd_begin self -> past_pd_threshold self = false ->
  TorqueToPD_select self pos t = (self, feedforward_push self).
Proof.
  intros Ht Hp Hl. unfold TorqueToPD_select.
  apply Qltb_ge in Ht. apply Qltb_lt in Hp.
  now rewrite Ht, Hp, Hl.
Qed.

Lemma select_position_target :
  t_begin self <= t -> t < t_reset self ->
  pd_begin self <= pos \/ past_pd_threshold self = true ->
  TorqueToPD_select self pos t =
    (set_past_pd_threshold self true, position_target self).
Proof.
  intros Ht Hr Hg. unfold TorqueToPD_select.
  apply Qltb_ge in Ht. apply Qltb_lt in Hr. rewrite Ht, Hr.
  destruct Hg as [Hp | Hl].
  - apply Qltb_ge in Hp. now rewrite Hp.
  - rewrite Hl. now rewrite andb_false_r.
Qed.

Lemma select_torque_limited_reset :
  t_begin self <= t -> t_reset self <= t ->
  pd_begin self <= pos \/ past_pd_threshold self = true ->
  TorqueToPD_select self pos t = (self, torque_limited_reset self).
Proof.
  intros Ht Hr Hg. unfold TorqueToPD_select.
  apply Qltb_ge in Ht. apply Qltb_ge in Hr. rewrite Ht, Hr.
  destruct Hg as [Hp | Hl].
  - apply Qltb_ge in Hp. now rewrite Hp.
  - rewrite Hl. now rewrite andb_false_r.
Qed.

(** One call either leaves the object alone or sets the latch, and the
    second only in the third branch, which [pos] and [t] must have
    opened. *)
Lemma select_object :
  fst (TorqueToPD_select self pos t) = self
  \/ (fst (TorqueToPD_select self pos t) = set_past_pd_threshold self true
      /\ snd (TorqueToPD_select self pos t) = position_target self
      /\ t_begin self <= t /\ t < t_reset self
      /\ (pd_begin self <= pos \/ past_pd_threshold self = true)).
Proof.
  unfold TorqueToPD_select.
  destruct (t <? t_begin self) eqn:E1; [now left|].
  destruct ((pos <? pd_begin self) && negb (past_pd_threshold self)) eqn:E2;
    [now left|].
  destruct (t <? t_reset self) eqn:E3; [|now left].
  right. cbn. repeat split.
  - now apply Qltb_ge.
  - now apply Qltb_lt.
  - apply andb_false_iff in E2. destruct E2 as [E2 | E2].
    + left. now apply Qltb_ge.
    + right. now apply negb_false_iff.
Qed.

End Selector.

(** The commands of the second and third branch differ: one has a target
    position, the other has none. *)
Lemma position_target_not_push (s s' : TorqueToPD) :
  position_target s <> feedforward_push s'.
Proof. unfold position_target, feedforward_push. intro H. discriminate H. Qed.


Lemma select_same_config (s : TorqueToPD) (pos t : Q) :
  same_config s (fst (TorqueToPD_select s pos t)).
Proof.
  destruct (select_object s pos t) as [-> | [-> _]]; reflexivity.
Qed.

Lemma after_calls_same_config (inputs : list (Q * Q)) :
  forall s, same_config s (after_calls s inputs).
Proof.
  induction inputs as [|i inputs IH]; intro s; [reflexivity|].
  cbn. unfold same_config in *.
  specialize (IH (fst (TorqueToPD_select s (fst i) (snd i)))).
  unfold after_calls in IH. rewrite IH.
  apply select_same_config.
Qed.



Lemma after_calls_latch_origin (inputs : list (Q * Q)) :
  forall s, past_pd_threshold s = false ->
            past_pd_threshold (after_calls s inputs) = true ->
            Exists (crossing s) inputs.
Proof.
  induction inputs as [|i inputs IH]; intros s Hs H.
  - cbn in H. congruence.
  - cbn in H.
    destruct (select_object s (fst i) (snd i))
      as [E | (E & _ & Hb & Hr & [Hp | Hl])].
    + apply Exists_cons_tl. rewrite E in H. now apply IH.
    + apply Exists_cons_hd. repeat split; assumption.
    + congruence.
Qed.

(** ** The selector's claims *)

(** C5.  Whenever [t < t_begin], whatever the position and whatever the
    latch, the call leaves the object as it is and sends hold-zero: target
    position 0.0, the configured kp_scale, kd_scale and maximum_torque, no
    feedforward torque, and the query flag set. *)
Theorem hold_zero_before_t_begin (self : TorqueToPD) (pos t : Q) :
  t < t_begin self ->
  TorqueToPD_select self pos t =
    (self,
     {| Moteus.position := Some 0.0;
        Moteus.kp_scale := Some (kp_scale self);
        Moteus.kd_scale := Some (kd_scale self);
        Moteus.maximum_torque := Some (maximum_torque self);
        Moteus.feedforward_torque := None;
        Moteus.query := true |}).
Proof. intro H. now rewrite select_hold_zero. Qed.

Lemma hold_zero_before_t_begin_witness :
  0.1 < t_begin (set_past_pd_threshold (TorqueToPD_init main_args) true)
  /\ TorqueToPD_select
       (set_past_pd_threshold (TorqueToPD_init main_args) true) 3 0.1
     = (set_past_pd_threshold (TorqueToPD_init main_args) true,
        {| Moteus.position := Some 0.0;
           Moteus.kp_scale := Some 1.0;
           Moteus.kd_scale := Some 1.0;
           Moteus.maximum_torque := Some 1.5;
           Moteus.feedforward_torque := None;
           Moteus.query := true |}).
Proof.
  split; [reflexivity|].
  apply (hold_zero_before_t_begin
           (set_past_pd_threshold (TorqueToPD_init main_args) true) 3 0.1).
  reflexivity.
Defined.

(** C8.  Whenever [t >= t_begin], [pos < pd_begin] and the latch is clear,
    the call sends feedforward-push: kp and kd scale 0, the configured
    torque as feedforward torque, maximum_torque as the limit, the query flag
    set, and no target position. *)
Theorem feedforward_push_below_threshold (self : TorqueToPD) (pos t : Q) :
  t_begin self <= t ->
  pos < pd_begin self ->
  past_pd_threshold self = false ->
  TorqueToPD_select self pos t =
    (self,
     {| Moteus.position := None;
        Moteus.kp_scale := Some 0.0;
        Moteus.kd_scale := Some 0.0;
        Moteus.maximum_torque := Some (maximum_torque self);
        Moteus.feedforward_torque := Some (torque self);
        Moteus.query := true |}).
Proof. intros Ht Hp Hl. now rewrite select_feedforward_push. Qed.

Lemma feedforward_push_below_threshold_witness :
  TorqueToPD_select (TorqueToPD_init main_args) 1.9 0.4
  = (TorqueToPD_init main_args,
     {| Moteus.position := None;
        Moteus.kp_scale := Some 0.0;
        Moteus.kd_scale := Some 0.0;
        Moteus.maximum_torque := Some 1.5;
        Moteus.feedforward_torque := Some 1.5;
        Moteus.query := true |}).
Proof.
  apply (feedforward_push_below_threshold (TorqueToPD_init main_args) 1.9 0.4).
  - cbn. unfold Qle. cbn. lia.
  - reflexivity.
  - reflexivity.
Defined.

(** C1, as stated, fails.  With the configuration of [main], the latch clear
    and the position 0, a call at [t = 1.0 >= t_reset = 0.8] takes the second
    branch: it sends feedforward-push, not the torque-limited reset. *)
Lemma reset_after_t_reset_counterexample :
  t_reset (TorqueToPD_init main_args) <= 1.0
  /\ TorqueToPD_select (TorqueToPD_init main_args) 0 1.0
     = (TorqueToPD_init main_args, feedforward_push (TorqueToPD_init main_args))
  /\ snd (TorqueToPD_select (TorqueToPD_init main_args) 0 1.0)
     <> torque_limited_reset (TorqueToPD_init main_args).
Proof.
  split; [|split].
  - cbn. unfold Qle. cbn. lia.
  - reflexivity.
  - intro H. vm_compute in H. discriminate H.
Qed.

(** The first branch comes before the others too: where [t_begin > t_reset],
    a call with [t_reset <= t < t_begin] sends hold-zero. *)
Example hold_zero_comes_first :
  let self := set_past_pd_threshold
                (TorqueToPD_init
                   {| arg_t_begin := 0.8; arg_t_reset := 0.4;
                      arg_pd_begin := 2.0; arg_pd_target := 2.5;
                      arg_torque := 1.5; arg_kp_scale := 1.0;
                      arg_kd_scale := 1.0; arg_maximum_torque := 1.5;
                      arg_termination_time := 1.2; arg_reset_torque := 0.2 |})
                true in
  TorqueToPD_select self 3 0.5 = (self, hold_zero self).
Proof. reflexivity. Qed.

(** C1, amended.  Whenever [t >= t_reset] and neither earlier branch applies,
    that is [t >= t_begin] (which [t_begin <= t_reset] gives) and the
    position is at least [pd_begin] or the latch is set, the call sends the
    torque-limited reset: target position 0, the configured kp_scale and
    kd_scale, and reset_torque as the torque limit, the query flag set. *)
Theorem reset_after_t_reset (self : TorqueToPD) (pos t : Q) :
  t_reset self <= t ->
  t_begin self <= t ->
  pd_begin self <= pos \/ past_pd_threshold self = true ->
  TorqueToPD_select self pos t =
    (self,
     {| Moteus.position := Some 0;
        Moteus.kp_scale := Some (kp_scale self);
        Moteus.kd_scale := Some (kd_scale self);
        Moteus.maximum_torque := Some (reset_torque self);
        Moteus.feedforward_torque := None;
        Moteus.query := true |}).
Proof. intros Hr Ht Hg. now rewrite select_torque_limited_reset. Qed.

Lemma reset_after_t_reset_witness :
  TorqueToPD_select (TorqueToPD_init main_args) 2.2 0.9
  = (TorqueToPD_init main_args,
     {| Moteus.position := Some 0;
        Moteus.kp_scale := Some 1.0;
        Moteus.kd_scale := Some 1.0;
        Moteus.maximum_torque := Some 0.2;
        Moteus.feedforward_torque := None;
        Moteus.query := true |}).
Proof.
  apply (reset_after_t_reset (TorqueToPD_init main_args) 2.2 0.9).
  - cbn. unfold Qle. cbn. lia.
  - cbn. unfold Qle. cbn. lia.
  - left. cbn. unfold Qle. cbn. lia.
Defined.



(** ** The latch on floats *)

(** On rationals the chain over floats is the chain over [Q]. *)
Lemma select_on_rationals (s : TorqueToPD) (pos t : Q) :
  PyFloat.TorqueToPD_select (float_object s) (PyFloat.Fin pos) (PyFloat.Fin t)
  = (float_object (fst (TorqueToPD_select s pos t)),
     float_command (snd (TorqueToPD_select s pos t))).
Proof.
  unfold PyFloat.TorqueToPD_select, TorqueToPD_select. cbn.
  destruct (t <? t_begin s); [reflexivity|].
  destruct ((pos <? pd_begin s) && negb (past_pd_threshold s)); [reflexivity|].
  destruct (t <? t_reset s); reflexivity.
Qed.

Lemma ltb_false (a b : PyFloat.number) :
  PyFloat.ltb a b = false ->
  PyFloat.leb b a = true \/ a = PyFloat.NaN \/ b = PyFloat.NaN.
Proof.
  destruct a as [| |x|], b as [| |y|]; cbn; auto; try discriminate.
  unfold Qltb. rewrite negb_false_iff. auto.
Qed.

Lemma ltb_true_left (a b : PyFloat.number) :
  PyFloat.ltb a b = true -> a <> PyFloat.NaN.
Proof. destruct a; cbn; intro H; discriminate. Qed.

(** One call over floats either leaves the object alone or sets the latch,
    and the second only where the three tests of the chain came out as the
    third branch needs them. *)
Lemma float_select_object (s : PyFloat.TorqueToPD) (pos t : PyFloat.number) :
  fst (PyFloat.TorqueToPD_select s pos t) = s
  \/ (PyFloat.ltb t (PyFloat.t_begin s) = false
      /\ PyFloat.ltb t (PyFloat.t_reset s) = true
      /\ (PyFloat.ltb pos (PyFloat.pd_begin s) = false
          \/ PyFloat.past_pd_threshold s = true)).
Proof.
  unfold PyFloat.TorqueToPD_select.
  destruct (PyFloat.ltb t (PyFloat.t_begin s)) eqn:E1; [now left|].
  destruct (PyFloat.ltb pos (PyFloat.pd_begin s)
            && negb (PyFloat.past_pd_threshold s)) eqn:E2; [now left|].
  destruct (PyFloat.ltb t (PyFloat.t_reset s)) eqn:E3; [|now left].
  right. repeat split; auto.
  apply andb_false_iff in E2. destruct E2 as [E2 | E2]; [now left|].
  right. now apply negb_false_iff.
Qed.

Lemma float_latch_origin (inputs : list (PyFloat.number * PyFloat.number)) :
  forall s : PyFloat.TorqueToPD,
    PyFloat.past_pd_threshold s = false ->
    PyFloat.past_pd_threshold (PyFloat.after_calls s inputs) = true ->
    Exists (fun i => PyFloat.ltb (snd i) (PyFloat.t_begin s) = false
                     /\ PyFloat.ltb (snd i) (PyFloat.t_reset s) = true
                     /\ PyFloat.ltb (fst i) (PyFloat.pd_begin s) = false)
           inputs.
Proof.
  induction inputs as [|i inputs IH]; intros s Hs H.
  - cbn in H. congruence.
  - cbn in H.
    destruct (float_select_object s (fst i) (snd i))
      as [E | (Hb & Hr & [Hp | Hl])].
    + apply Exists_cons_tl. rewrite E in H. now apply IH.
    + apply Exists_cons_hd. auto.
    + congruence.
Qed.

(** C10, as stated, fails.  With the configuration of [main], one call with
    [t = 0.5], in the window, and a NaN for the position sets the latch:
    [pos < pd_begin] is false on a NaN, so the second branch is passed over
    and the third taken, although [pos >= pd_begin] is false as well. *)
Lemma latch_needs_crossing_counterexample :
  let s0 := PyFloat.TorqueToPD_init (float_args main_args) in
  let inputs := [(PyFloat.NaN, PyFloat.Fin 0.5)] in
  PyFloat.past_pd_threshold (PyFloat.after_calls s0 inputs) = true
  /\ ~ Exists (fun i => PyFloat.leb (PyFloat.t_begin s0) (snd i) = true
                        /\ PyFloat.ltb (snd i) (PyFloat.t_reset s0) = true
                        /\ PyFloat.leb (PyFloat.pd_begin s0) (fst i) = true)
               inputs.
Proof.
  cbv zeta. split; [reflexivity|].
  intro H. apply Exists_cons in H. destruct H as [(_ & _ & H) | H].
  - cbn in H. discriminate H.
  - apply Exists_nil in H. exact H.
Qed.

(** C10, amended.  Starting from the initial object, after any series of
    calls the latch is set only if one of them was made with
    [t_begin <= t < t_reset] and with a position for which [pos < pd_begin]
    is false: [pos >= pd_begin], or a NaN.  (A NaN for [t] takes the last
    branch and sets nothing; a NaN for [t_begin] or [pd_begin] in the
    configuration makes the test against it false for every call.) *)
Theorem latch_needs_crossing
  (a : PyFloat.InitArgs) (inputs : list (PyFloat.number * PyFloat.number)) :
  PyFloat.past_pd_threshold
    (PyFloat.after_calls (PyFloat.TorqueToPD_init a) inputs) = true ->
  Exists (fun i =>
            (PyFloat.leb (PyFloat.arg_t_begin a) (snd i) = true
             \/ PyFloat.arg_t_begin a = PyFloat.NaN)
            /\ PyFloat.ltb (snd i) (PyFloat.arg_t_reset a) = true
            /\ (PyFloat.leb (PyFloat.arg_pd_begin a) (fst i) = true
                \/ fst i = PyFloat.NaN
                \/ PyFloat.arg_pd_begin a = PyFloat.NaN))
         inputs.
Proof.
  intro H.
  apply (float_latch_origin inputs (PyFloat.TorqueToPD_init a) eq_refl) in H.
  apply Exists_exists in H. destruct H as (i & Hi & Hb & Hr & Hp).
  apply Exists_exists. exists i. split; [exact Hi|].
  cbn in Hb, Hr, Hp. split; [|split].
  - destruct (ltb_false _ _ Hb) as [H | [H | H]]; auto.
    exfalso. exact (ltb_true_left _ _ Hr H).
  - exact Hr.
  - exact (ltb_false _ _ Hp).
Qed.

Lemma latch_needs_crossing_witness :
  Exists (fun i =>
            (PyFloat.leb (PyFloat.Fin 0.4) (snd i) = true
             \/ PyFloat.Fin 0.4 = PyFloat.NaN)
            /\ PyFloat.ltb (snd i) (PyFloat.Fin 0.8) = true
            /\ (PyFloat.leb (PyFloat.Fin 2.0) (fst i) = true
                \/ fst i = PyFloat.NaN
                \/ PyFloat.Fin 2.0 = PyFloat.NaN))
         [(PyFloat.Fin 1.0, PyFloat.Fin 0.3);
          (PyFloat.Fin 2.1, PyFloat.Fin 0.5);
          (PyFloat.NaN, PyFloat.Fin 0.9)].
Proof.
  apply (latch_needs_crossing (float_args main_args)
           [(PyFloat.Fin 1.0, PyFloat.Fin 0.3);
            (PyFloat.Fin 2.1, PyFloat.Fin 0.5);
            (PyFloat.NaN, PyFloat.Fin 0.9)]).
  reflexivity.
Defined.

(** ** One iteration *)

Lemma app_two {A} (l : list A) (x y : A) : (l ++ [x]) ++ [y] = l ++ [x; y].
Proof. now rewrite <- app_assoc. Qed.

Lemma loop_body_starved_clock (l : Locals) (w : World) :
  clock w = [] -> loop_body l w = (Starved, w).
Proof. intro H. unfold loop_body, bind, time_time. now rewrite H. Qed.

Lemma loop_body_starved_bus (l : Locals) (w : World) (now : Q) (ts : list Q) :
  clock w = now :: ts -> bus w = [] ->
  loop_body l w =
    (Starved,
     {| clock := ts; bus := [];
        trace := trace w ++ [EvSetPosition (iteration_command l now)];
        data := data w |}).
Proof.
  intros Hc Hb.
  unfold loop_body, bind, time_time, TorqueToPD_call, iteration_command.
  rewrite Hc.
  destruct (TorqueToPD_select _ _ _) as [s' cmd].
  unfold bind, set_position, exchange, emit. cbn. now rewrite Hb.
Qed.

Lemma loop_body_raised (l : Locals) (w : World) (now : Q) (ts : list Q)
      (e : Exn) (rs : list Reply) :
  clock w = now :: ts -> bus w = Reply_err e :: rs ->
  loop_body l w =
    (Raised e,
     {| clock := ts; bus := rs;
        trace := trace w ++ [EvSetPosition (iteration_command l now)];
        data := data w |}).
Proof.
  intros Hc Hb.
  unfold loop_body, bind, time_time, TorqueToPD_call, iteration_command.
  rewrite Hc.
  destruct (TorqueToPD_select _ _ _) as [s' cmd].
  unfold bind, set_position, exchange, emit. cbn. now rewrite Hb.
Qed.

Lemma loop_body_answered (l : Locals) (w : World) (now : Q) (ts : list Q)
      (s : Moteus.State) (rs : list Reply) :
  clock w = now :: ts -> bus w = Reply_ok s :: rs ->
  loop_body l w =
    (Done (if termination_time (torque_to_pd (next_locals l now s))
              <? now - timestamp_begin_loop l
           then None else Some (next_locals l now s)),
     {| clock := ts; bus := rs;
        trace := trace w ++ iteration_events l now s;
        data := data w ++ [(now - timestamp_begin_loop l, s)] |}).
Proof.
  intros Hc Hb.
  unfold loop_body, bind, time_time, TorqueToPD_call, iteration_events,
    iteration_command, next_locals.
  rewrite Hc.
  destruct (TorqueToPD_select _ _ _) as [s' cmd].
  unfold bind, set_position, exchange, data_append, print, emit, ret. cbn.
  rewrite Hb. cbn. rewrite app_two.
  now destruct (termination_time s' <? now - timestamp_begin_loop l).
Qed.

(** The deadline an iteration compares with is the one [main] was given. *)
Lemma same_config_termination_time (s s' : TorqueToPD) :
  same_config s s' -> termination_time s' = termination_time s.
Proof.
  unfold same_config, set_past_pd_threshold. intro H.
  now injection H.
Qed.

(** ** The loop *)

Lemma while_true_unfold (fuel : nat) (l : Locals) (w : World) :
  while_true (S fuel) l w =
    match loop_body l w with
    | (Done None, w') => (Done tt, w')
    | (Done (Some l'), w') => while_true fuel l' w'
    | (Raised e, w') => (Raised e, w')
    | (Starved, w') => (Starved, w')
    end.
Proof.
  cbn. unfold bind.
  destruct (loop_body l w) as [[[l'|]| |] w']; reflexivity.
Qed.

Lemma while_true_post (fuel : nat) :
  forall (l : Locals) (w : World),
    loop_post (dt_filtered l) w (while_true fuel l w).
Proof.
  induction fuel as [|fuel IH]; intros l w.
  - exists [], []. cbn. rewrite !app_nil_r.
    repeat split; auto. now exists [].
  - rewrite while_true_unfold.
    destruct (clock w) as [|now ts] eqn:Hc.
    { rewrite loop_body_starved_clock by assumption.
      exists [], []. cbn. rewrite !app_nil_r.
      repeat split; auto. now exists []. }
    destruct (bus w) as [|[s|e] rs] eqn:Hb.
    + rewrite (loop_body_starved_bus l w now ts) by assumption.
      exists [EvSetPosition (iteration_command l now)], []. cbn.
      rewrite app_nil_r, Hb. repeat split; auto. now exists [].
    + rewrite (loop_body_answered l w now ts s rs) by assumption.
      destruct (termination_time _ <? _).
      * exists (iteration_events l now s), [(now - timestamp_begin_loop l, s)].
        cbn. rewrite Hb. repeat split; auto. now exists [Reply_ok s].
      * match goal with
        | |- loop_post _ _ (while_true _ ?l' ?w') =>
            destruct (IH l' w') as (evs & samples & Ht & Hd & Hf & [ans Hs] & Hp & Ho)
        end.
        cbn [trace data bus] in Ht, Hd, Hs, Ho.
        exists (iteration_events l now s ++ evs),
               ((now - timestamp_begin_loop l, s) :: samples).
        rewrite Ht, Hd. rewrite <- !app_assoc. cbn.
        split; [reflexivity|]. split; [reflexivity|].
        split; [exact Hf|].
        split; [exists (Reply_ok s :: ans); rewrite Hb; cbn; f_equal; exact Hs|].
        split; [split; [reflexivity | exact Hp]|].
        destruct (fst (while_true fuel _ _)).
        -- unfold commands in *. cbn. now rewrite Ho.
        -- destruct Ho as [Ho Hin]. unfold commands in *. cbn.
           split; [now rewrite Ho | rewrite Hb; now right].
        -- exact I.
    + rewrite (loop_body_raised l w now ts e rs) by assumption.
      exists [EvSetPosition (iteration_command l now)], []. cbn.
      rewrite app_nil_r, Hb. repeat split; auto.
      * now exists [Reply_err e].
      * now left.
Qed.

(** The first thing a loop does, once it has read the clock, is to send the
    command the selector picks for the locals it starts with. *)
Lemma while_true_first_command (fuel : nat) (l : Locals) (w : World)
      (now : Q) (ts : list Q) :
  clock w = now :: ts ->
  exists evs,
    trace (snd (while_true (S fuel) l w))
    = trace w ++ EvSetPosition (iteration_command l now) :: evs.
Proof.
  intro Hc. rewrite while_true_unfold.
  destruct (bus w) as [|[s|e] rs] eqn:Hb.
  - rewrite (loop_body_starved_bus l w now ts) by assumption. now exists [].
  - rewrite (loop_body_answered l w now ts s rs) by assumption.
    destruct (termination_time _ <? _).
    + cbn. eexists. reflexivity.
    + match goal with
      | |- context [while_true _ ?l' ?w'] =>
          destruct (while_true_post fuel l' w') as (evs & _ & Ht & _)
      end.
      rewrite Ht. cbn. rewrite <- app_assoc. cbn. eexists. reflexivity.
  - rewrite (loop_body_raised l w now ts e rs) by assumption. now exists [].
Qed.

(** ** The [try] block and the [finally] block *)

Lemma flushes_app (l1 l2 : list Event) :
  flushes (l1 ++ l2) = flushes l1 ++ flushes l2.
Proof.
  induction l1 as [|[| | |] l1 IH]; cbn; auto. now rewrite IH.
Qed.

Lemma periods_app (l1 l2 : list Event) :
  periods (l1 ++ l2) = periods l1 ++ periods l2.
Proof.
  induction l1 as [|[| | |] l1 IH]; cbn; auto. now rewrite IH.
Qed.

Lemma commands_app (l1 l2 : list Event) :
  commands (l1 ++ l2) = (commands l1 + commands l2)%nat.
Proof. unfold commands. now rewrite filter_app, length_app. Qed.

Lemma main_try_stop_starved (a : InitArgs) (w : World) :
  bus w = [] -> main_try a w = (Starved, emit EvStop w).
Proof.
  intro Hb. unfold main_try, bind, set_stop, bind, exchange. now rewrite Hb.
Qed.

Lemma main_try_stop_raised (a : InitArgs) (w : World) (e : Exn) (rs : list Reply) :
  bus w = Reply_err e :: rs ->
  main_try a w =
    (Raised e,
     {| clock := clock w; bus := rs; trace := trace w ++ [EvStop]; data := data w |}).
Proof.
  intro Hb. unfold main_try, bind, set_stop, bind, exchange. now rewrite Hb.
Qed.

Lemma main_try_clock_starved (a : InitArgs) (w : World) (s : Moteus.State)
      (rs : list Reply) :
  bus w = Reply_ok s :: rs ->
  (length (clock w) < 2)%nat ->
  main_try a w =
    (Starved,
     {| clock := []; bus := rs; trace := trace w ++ [EvStop]; data := data w |}).
Proof.
  intros Hb Hc.
  unfold main_try, bind, set_stop, bind, exchange, ret, time_time. rewrite Hb.
  destruct (clock w) as [|tl [|t0 ts]] eqn:E; cbn in *.
  - now rewrite E.
  - now rewrite E.
  - lia.
Qed.

Lemma main_try_loop (a : InitArgs) (w : World) (s : Moteus.State)
      (rs : list Reply) (tl t0 : Q) (ts : list Q) :
  bus w = Reply_ok s :: rs ->
  clock w = tl :: t0 :: ts ->
  main_try a w =
    while_true (length ts) (initial_locals a tl t0)
      {| clock := ts; bus := rs; trace := trace w ++ [EvStop]; data := data w |}.
Proof.
  intros Hb Hc.
  unfold main_try, bind, set_stop, bind, exchange, ret, time_time, loop.
  rewrite Hb. cbn. rewrite Hc. reflexivity.
Qed.

Lemma main_try_has_post (a : InitArgs) (w : World) :
  main_try_post w (main_try a w).
Proof.
  destruct (bus w) as [|[s|e] rs] eqn:Hb.
  - rewrite main_try_stop_starved by assumption.
    exists [], []. cbn. rewrite app_nil_r, Hb.
    repeat split; auto. now exists [].
  - destruct (clock w) as [|tl [|t0 ts]] eqn:Hc.
    1,2: rewrite (main_try_clock_starved a w s rs) by (auto; rewrite Hc; cbn; lia);
      exists [], []; cbn; rewrite app_nil_r, Hb;
      repeat split; auto; now exists [Reply_ok s].
    rewrite (main_try_loop a w s rs tl t0 ts) by assumption.
    match goal with
    | |- main_try_post _ (while_true ?n ?l ?w') =>
        destruct (while_true_post n l w')
          as (evs & samples & Ht & Hd & Hf & [ans Hs] & Hp & Ho)
    end.
    cbn [trace data bus dt_filtered initial_locals] in Ht, Hd, Hs, Hp, Ho.
    exists evs, samples.
    rewrite Ht, Hd, <- app_assoc. cbn.
    split; [reflexivity|]. split; [reflexivity|]. split; [exact Hf|].
    split; [exists (Reply_ok s :: ans); rewrite Hb; cbn; f_equal; exact Hs|].
    split; [exact Hp|].
    destruct (fst (while_true _ _ _)).
    + exact Ho.
    + destruct Ho as [Ho Hin]. rewrite Ho, Hb. split; [cbn; lia | now right].
    + exact I.
  - rewrite (main_try_stop_raised a w e rs) by assumption.
    exists [], []. cbn. rewrite app_nil_r, Hb.
    repeat split; auto.
    + now exists [Reply_err e].
    + now left.
Qed.

Lemma main_finally_starved (w : World) :
  bus w = [] -> main_finally w = (Starved, emit EvStop w).
Proof.
  intro Hb. unfold main_finally, bind, set_stop, bind, exchange. now rewrite Hb.
Qed.

Lemma main_finally_raised (w : World) (e : Exn) (rs : list Reply) :
  bus w = Reply_err e :: rs ->
  main_finally w =
    (Raised e,
     {| clock := clock w; bus := rs; trace := trace w ++ [EvStop]; data := data w |}).
Proof.
  intro Hb. unfold main_finally, bind, set_stop, bind, exchange. now rewrite Hb.
Qed.

Lemma main_finally_done (w : World) (s : Moteus.State) (rs : list Reply) :
  bus w = Reply_ok s :: rs ->
  main_finally w =
    (Done tt,
     {| clock := clock w; bus := rs;
        trace := trace w ++ [EvStop; EvDump (data w)]; data := data w |}).
Proof.
  intro Hb.
  unfold main_finally, bind, set_stop, bind, exchange, ret, pickle_dump, emit.
  rewrite Hb. cbn. now rewrite app_two.
Qed.

(** [main] is its [try] block followed by its [finally] block, unless the
    world starved the [try] block. *)
Lemma main_with_unfold (a : InitArgs) (w : World) :
  main_with a w =
    match main_try a w with
    | (Starved, w1) => (Starved, w1)
    | (o, w1) =>
        match main_finally w1 with
        | (Done _, w2) => (o, w2)
        | (Raised e, w2) => (Raised e, w2)
        | (Starved, w2) => (Starved, w2)
        end
    end.
Proof. reflexivity. Qed.

Lemma next_locals_termination_time (l : Locals) (now : Q) (s : Moteus.State) :
  termination_time (torque_to_pd (next_locals l now s))
  = termination_time (torque_to_pd l).
Proof.
  cbn. apply same_config_termination_time, select_same_config.
Qed.

Lemma commands_iteration_events (l : Locals) (now : Q) (s : Moteus.State) :
  commands (iteration_events l now s) = 1%nat.
Proof. reflexivity. Qed.

(** A loop whose clock first stays within the deadline, for the readings
    [ts], and then passes it, at [tk], and whose actuator answers every
    time, returns at [tk]: it has consumed just these readings and answers
    and has stored one sample for each. *)
Lemma while_true_until_deadline (ts : list Q) :
  forall (fuel : nat) (l : Locals) (w : World) (tk : Q) (crest : list Q)
         (states : list Moteus.State) (sk : Moteus.State) (brest : list Reply),
    (length ts < fuel)%nat ->
    clock w = ts ++ tk :: crest ->
    bus w = map Reply_ok states ++ Reply_ok sk :: brest ->
    length states = length ts ->
    Forall (fun t => t - timestamp_begin_loop l <= termination_time (torque_to_pd l)) ts ->
    termination_time (torque_to_pd l) < tk - timestamp_begin_loop l ->
    exists tr,
      while_true fuel l w =
        (Done tt,
         {| clock := crest; bus := brest; trace := tr;
            data := data w ++
                    combine (map (fun t => t - timestamp_begin_loop l) ts) states
                    ++ [(tk - timestamp_begin_loop l, sk)] |})
      /\ commands tr = (commands (trace w) + S (length ts))%nat.
Proof.
  induction ts as [|t ts IH];
    intros fuel l w tk crest states sk brest Hfuel Hc Hb Hlen Hin Hout.
  - destruct states; [|discriminate Hlen].
    destruct fuel as [|fuel]; [cbn in Hfuel; lia|].
    cbn in Hc, Hb. rewrite while_true_unfold.
    rewrite (loop_body_answered l w tk crest sk brest) by assumption.
    rewrite next_locals_termination_time.
    apply Qltb_lt in Hout. rewrite Hout.
    eexists. split; [reflexivity|].
    cbn [trace]. now rewrite commands_app, commands_iteration_events.
  - destruct states as [|s states]; [discriminate Hlen|].
    destruct fuel as [|fuel]; [cbn in Hfuel; lia|].
    cbn in Hc, Hb, Hlen. injection Hlen as Hlen.
    inversion Hin as [|? ? Ht Hin']; subst.
    rewrite while_true_unfold.
    rewrite (loop_body_answered l w t (ts ++ tk :: crest) s
               (map Reply_ok states ++ Reply_ok sk :: brest)) by assumption.
    rewrite next_locals_termination_time.
    apply Qltb_ge in Ht. rewrite Ht.
    match goal with
    | |- context [while_true fuel ?l' ?w'] =>
        destruct (IH fuel l' w' tk crest states sk brest) as (tr & E & Hn)
    end.
    + cbn in Hfuel. lia.
    + reflexivity.
    + reflexivity.
    + exact Hlen.
    + rewrite next_locals_termination_time. exact Hin'.
    + rewrite next_locals_termination_time. exact Hout.
    + exists tr. split.
      * rewrite E. cbn [data timestamp_begin_loop next_locals].
        rewrite <- app_assoc. reflexivity.
      * rewrite Hn. cbn [trace length].
        rewrite commands_app, commands_iteration_events. lia.
Qed.

(** ** The claims about the run *)

(** C6.  When the actuator answers every time, the loop returns at the first
    iteration whose [time_since_start] is greater than [termination_time]:
    the readings [ts] stay within the deadline, [tk] is the first past it,
    and the loop consumes exactly [ts] and [tk].  The sample of that last
    iteration is stored too, so [data] has as many samples as iterations were
    run, one [set_position] each. *)
Theorem loop_returns_at_deadline
  (a : InitArgs) (tl t0 : Q) (ts : list Q) (tk : Q) (crest : list Q)
  (s0 : Moteus.State) (states : list Moteus.State) (sk : Moteus.State)
  (brest : list Reply) :
  length states = length ts ->
  Forall (fun t => t - t0 <= arg_termination_time a) ts ->
  arg_termination_time a < tk - t0 ->
  exists tr,
    main_try a (fresh (tl :: t0 :: ts ++ tk :: crest)
                      (Reply_ok s0 :: map Reply_ok states ++ Reply_ok sk :: brest))
    = (Done tt,
       {| clock := crest; bus := brest; trace := tr;
          data := combine (map (fun t => t - t0) ts) states ++ [(tk - t0, sk)] |})
    /\ commands tr = S (length ts)
    /\ length (combine (map (fun t => t - t0) ts) states ++ [(tk - t0, sk)])
       = S (length ts).
Proof.
  intros Hlen Hin Hout.
  rewrite (main_try_loop a _ s0 (map Reply_ok states ++ Reply_ok sk :: brest)
             tl t0 (ts ++ tk :: crest)) by reflexivity.
  match goal with
  | |- context [while_true ?n ?l ?w] =>
      destruct (while_true_until_deadline ts n l w tk crest states sk brest)
        as (tr & E & Hn)
  end; try assumption; try reflexivity.
  - rewrite length_app. cbn. lia.
  - exists tr. rewrite E. cbn [data fresh timestamp_begin_loop initial_locals app].
    split; [reflexivity|]. split.
    + rewrite Hn. reflexivity.
    + rewrite length_app, length_combine, length_map, Hlen. cbn. lia.
Qed.

Lemma loop_returns_at_deadline_witness :
  exists tr,
    main_try main_args
      (fresh [0; 0; 0.5; 1.2; 1.3; 1.4]
             [Reply_ok (at_position 0); Reply_ok (at_position 1);
              Reply_ok (at_position 2); Reply_ok (at_position 0)])
    = (Done tt,
       {| clock := [1.4]; bus := []; trace := tr;
          data := [(0.5 - 0, at_position 1); (1.2 - 0, at_position 2);
                   (1.3 - 0, at_position 0)] |})
    /\ commands tr = 3%nat
    /\ length [(0.5 - 0, at_position 1); (1.2 - 0, at_position 2);
               (1.3 - 0, at_position 0)] = 3%nat.
Proof.
  apply (loop_returns_at_deadline main_args 0 0 [0.5; 1.2] 1.3 [1.4]
           (at_position 0) [at_position 1; at_position 2] (at_position 0) []).
  - reflexivity.
  - repeat constructor; cbn; unfold Qle; cbn; lia.
  - reflexivity.
Defined.

(** C2.  The code breaks the claim here.  The first [set_position] raises,
    so the loop is left by an error of the actuator.  The [finally] block
    sends its stop, that one raises as well, and [pickle.dump], which comes
    after it, is never reached: nothing is flushed, and the error the caller
    gets is the second one, not the one that ended the loop. *)
Lemma final_stop_failure_skips_dump :
  let w := fresh [0; 0; 0.1]
                 [Reply_ok (at_position 0); Reply_err (TransportError 1);
                  Reply_err (TransportError 2)] in
  fst (main_try main_args w) = Raised (TransportError 1)
  /\ fst (main w) = Raised (TransportError 2)
  /\ trace (snd (main w))
     = [EvStop; EvSetPosition (hold_zero (TorqueToPD_init main_args)); EvStop]
  /\ flushes (trace (snd (main w))) = [].
Proof. vm_compute. repeat split. Qed.

(** X19.  What the [finally] block does keep.  On every way out of the
    [try] block, by return or by an error of the actuator, the [finally]
    block sends a stop after everything else.  Nothing was flushed before.
    When that stop is answered, [data] is then flushed, once and whole, and
    the caller gets the outcome of the [try] block, the error if there was
    one; when the loop failed at its k-th [set_position], the flushed [data]
    has k-1 samples, and after a return it has one per iteration.  When the
    stop raises, that error reaches the caller and nothing is flushed. *)
Theorem cleanup_on_every_exit
  (a : InitArgs) (ticks : list Q) (replies : list Reply)
  (o : Outcome unit) (w1 : World) :
  main_try a (fresh ticks replies) = (o, w1) ->
  o <> Starved ->
  (exists post,
      trace (snd (main_with a (fresh ticks replies))) = trace w1 ++ EvStop :: post)
  /\ flushes (trace w1) = []
  /\ (o = Done tt -> length (data w1) = commands (trace w1))
  /\ (forall e, o = Raised e ->
                length (data w1) = (commands (trace w1) - 1)%nat)
  /\ (forall s rest,
         bus w1 = Reply_ok s :: rest ->
         main_with a (fresh ticks replies)
         = (o, {| clock := clock w1; bus := rest;
                  trace := trace w1 ++ [EvStop; EvDump (data w1)];
                  data := data w1 |})
         /\ flushes (trace (snd (main_with a (fresh ticks replies)))) = [data w1])
  /\ (forall e' rest,
         bus w1 = Reply_err e' :: rest ->
         main_with a (fresh ticks replies)
         = (Raised e', {| clock := clock w1; bus := rest;
                          trace := trace w1 ++ [EvStop];
                          data := data w1 |})).
Proof.
  intros Htry Ho.
  destruct (main_try_has_post a (fresh ticks replies))
    as (evs & samples & Ht & Hd & Hf & _ & _ & Hout).
  rewrite main_with_unfold. rewrite Htry in *.
  cbn [fst snd fresh trace data app] in Ht, Hd, Hout.
  assert (Hc : commands (trace w1) = commands evs) by now rewrite Ht.
  split; [|split; [|split; [|split; [|split]]]].
  - destruct (bus w1) as [|[s|e] rs] eqn:Hb.
    + rewrite main_finally_starved by assumption.
      destruct o; [| |congruence]; now exists [].
    + rewrite (main_finally_done w1 s rs) by assumption.
      destruct o; [| |congruence]; now exists [EvDump (data w1)].
    + rewrite (main_finally_raised w1 e rs) by assumption.
      destruct o; [| |congruence]; now exists [].
  - rewrite Ht. exact Hf.
  - intros ->. rewrite Hd, Hc. now symmetry.
  - intros e ->. rewrite Hd, Hc. now destruct Hout.
  - intros s rest Hb. rewrite (main_finally_done w1 s rest) by assumption.
    destruct o; [| |congruence]; cbn [snd trace].
    + split; [reflexivity|].
      rewrite flushes_app, Ht. cbn. now rewrite Hf.
    + split; [reflexivity|].
      rewrite flushes_app, Ht. cbn. now rewrite Hf.
  - intros e' rest Hb. rewrite (main_finally_raised w1 e' rest) by assumption.
    destruct o; [| |congruence]; reflexivity.
Qed.

(** The loop fails at its second [set_position]; the stop of the [finally]
    block is answered; the one sample of the first iteration is flushed and
    the caller gets the loop's error. *)
Lemma cleanup_on_every_exit_witness :
  let w := fresh [0; 0; 0.1; 0.2]
                 [Reply_ok (at_position 0); Reply_ok (at_position 0.3);
                  Reply_err (TransportError 7); Reply_ok (at_position 0.3)] in
  fst (main w) = Raised (TransportError 7)
  /\ flushes (trace (snd (main w))) = [[(0.1 - 0, at_position 0.3)]].
Proof.
  intro w.
  pose proof (cleanup_on_every_exit main_args
                [0; 0; 0.1; 0.2]
                [Reply_ok (at_position 0); Reply_ok (at_position 0.3);
                 Reply_err (TransportError 7); Reply_ok (at_position 0.3)]
                (Raised (TransportError 7))
                (snd (main_try main_args w))
                eq_refl) as H.
  assert (Hne : @Raised unit (TransportError 7) <> Starved) by discriminate.
  destruct (H Hne) as (_ & _ & _ & _ & Hflush & _).
  destruct (Hflush (at_position 0.3) [] eq_refl) as [E1 E2].
  split.
  - unfold main. fold w in E1. rewrite E1. reflexivity.
  - exact E2.
Defined.

(** What the [finally] block adds to the trace: at most a stop and a dump,
    no command and no printed line. *)
Lemma main_with_trace (a : InitArgs) (w : World) :
  exists post,
    trace (snd (main_with a w)) = trace (snd (main_try a w)) ++ post
    /\ periods post = []
    /\ commands post = 0%nat.
Proof.
  rewrite main_with_unfold.
  destruct (main_try a w) as [o w1]. cbn [snd].
  assert (H : exists post,
             trace (snd (match main_finally w1 with
                         | (Done _, w2) => (o, w2)
                         | (Raised e, w2) => (Raised e, w2)
                         | (Starved, w2) => (Starved, w2)
                         end)) = trace w1 ++ post
             /\ periods post = [] /\ commands post = 0%nat).
  { destruct (bus w1) as [|[s|e] rs] eqn:Hb.
    - rewrite main_finally_starved by assumption. now exists [EvStop].
    - rewrite (main_finally_done w1 s rs) by assumption.
      now exists [EvStop; EvDump (data w1)].
    - rewrite (main_finally_raised w1 e rs) by assumption. now exists [EvStop]. }
  destruct o; try exact H.
  exists []. now rewrite app_nil_r.
Qed.

(** C3, as stated, fails.  A run with a configuration that breaks the
    invariant is not rejected, at its start or later: it goes through its
    loop, here twice, and returns. *)
Lemma invalid_configuration_counterexample :
  let w := fresh [0; 0; 0.5; 1.3]
                 [Reply_ok (at_position 0); Reply_ok (at_position 0);
                  Reply_ok (at_position 0); Reply_ok (at_position 0)] in
  ~ config_invariant inverted_args
  /\ t_reset (TorqueToPD_init inverted_args) < t_begin (TorqueToPD_init inverted_args)
  /\ fst (main_with inverted_args w) = Done tt
  /\ commands (trace (snd (main_with inverted_args w))) = 2%nat.
Proof.
  split; [|vm_compute; repeat split].
  intros (_ & H & _). vm_compute in H. now apply H.
Qed.

(** C3, amended.  No configuration is rejected: [__init__] stores what it is
    given, and a run, whatever its configuration, raises no error but one
    that the actuator raised. *)
Theorem only_actuator_errors (a : InitArgs) (w : World) (e : Exn) :
  fst (main_with a w) = Raised e ->
  In (Reply_err e) (bus w)
  /\ t_begin (TorqueToPD_init a) = arg_t_begin a
  /\ t_reset (TorqueToPD_init a) = arg_t_reset a
  /\ termination_time (TorqueToPD_init a) = arg_termination_time a
  /\ maximum_torque (TorqueToPD_init a) = arg_maximum_torque a.
Proof.
  intro H. split; [|now repeat split].
  destruct (main_try_has_post a w)
    as (evs & samples & _ & _ & _ & [ans Hbus] & _ & Hout).
  rewrite main_with_unfold in H.
  destruct (main_try a w) as [o w1]. cbn [fst snd] in *.
  assert (Hfin : forall o' : Outcome unit,
             o' <> Starved ->
             (forall e0, o' = Raised e0 -> In (Reply_err e0) (bus w)) ->
             fst (match main_finally w1 with
                  | (Done _, w2) => (o', w2)
                  | (Raised e1, w2) => (Raised e1, w2)
                  | (Starved, w2) => (Starved, w2)
                  end) = Raised e ->
             In (Reply_err e) (bus w)).
  { intros o' _ Ho' H'.
    destruct (bus w1) as [|[s|e1] rs] eqn:Hb.
    - rewrite main_finally_starved in H' by assumption. discriminate H'.
    - rewrite (main_finally_done w1 s rs) in H' by assumption.
      apply Ho'. exact H'.
    - rewrite (main_finally_raised w1 e1 rs) in H' by assumption.
      cbn in H'. injection H' as <-.
      rewrite Hbus. apply in_or_app. right. now left. }
  destruct o as [u|e0|].
  - apply (Hfin (Done u)); [discriminate | discriminate | exact H].
  - apply (Hfin (Raised e0)); [discriminate | | exact H].
    intros e1 E. injection E as E. subst e1. now destruct Hout.
  - discriminate H.
Qed.

Lemma only_actuator_errors_witness :
  In (Reply_err (TransportError 7))
     [Reply_ok (at_position 0); Reply_ok (at_position 0.3);
      Reply_err (TransportError 7); Reply_ok (at_position 0.3)].
Proof.
  refine (proj1 (only_actuator_errors inverted_args
                   (fresh [0; 0; 0.1; 0.2]
                      [Reply_ok (at_position 0); Reply_ok (at_position 0.3);
                       Reply_err (TransportError 7); Reply_ok (at_position 0.3)])
                   (TransportError 7) _)).
  reflexivity.
Defined.

(** A configuration whose threshold is below the start position 0.0. *)
Example low_threshold_args_first_command :
  let a := {| arg_t_begin := 0; arg_t_reset := 0.8; arg_pd_begin := -(1);
              arg_pd_target := 2.5; arg_torque := 1.5;
              arg_kp_scale := default_kp_scale;
              arg_kd_scale := default_kd_scale;
              arg_maximum_torque := 1.5; arg_termination_time := 1.2;
              arg_reset_torque := default_reset_torque |} in
  snd (TorqueToPD_select (TorqueToPD_init a) 0.0 0.1)
  = position_target (TorqueToPD_init a)
  /\ snd (TorqueToPD_select (TorqueToPD_init a) (-(5)) 0.1)
     = feedforward_push (TorqueToPD_init a).
Proof. split; reflexivity. Qed.

(** C9, as stated, fails.  With [t_begin = 0] and [pd_begin = 2.0], when the
    clock steps back between the reading of [timestamp_begin_loop] (1) and
    the first [loop_start] (0.5), the first [time_since_start] is negative,
    so below [t_begin]: the first command is hold-zero, not
    feedforward-push. *)
Lemma first_command_counterexample :
  let w := fresh [0; 1; 0.5; 3]
                 [Reply_ok (at_position 0); Reply_ok (at_position 0);
                  Reply_ok (at_position 0); Reply_ok (at_position 0)] in
  arg_t_begin immediate_args <= 0
  /\ 0 < arg_pd_begin immediate_args
  /\ (exists rest,
        trace (snd (main_with immediate_args w))
        = EvStop
            :: EvSetPosition
                 {| Moteus.position := Some 0.0;
                    Moteus.kp_scale := Some 1.0;
                    Moteus.kd_scale := Some 1.0;
                    Moteus.maximum_torque := Some 1.5;
                    Moteus.feedforward_torque := None;
                    Moteus.query := true |}
            :: rest)
  /\ hd_error (sent (trace (snd (main_with immediate_args w))))
     <> Some (feedforward_push (TorqueToPD_init immediate_args)).
Proof.
  cbv zeta. split; [|split; [|split]].
  - cbn. unfold Qle. cbn. lia.
  - reflexivity.
  - eexists. vm_compute. reflexivity.
  - vm_compute. discriminate.
Qed.

(** C9, amended.  In every run and for every configuration, the first call
    of the selector gets the position 0.0 that [main] starts with, not one
    the actuator reported: the first command is the one the selector picks
    for 0.0 and the first [time_since_start], whatever the actuator answered
    to the stop.  Where [t_begin <= 0 < pd_begin], and the clock has not gone
    back between its second and third reading, that command is
    feedforward-push.  Where [pd_begin <= 0] and the first
    [time_since_start] is in the window, it is position-target: the 0.0
    counts as past the threshold. *)
Theorem first_command_from_position_zero
  (a : InitArgs) (tl t0 t1 : Q) (crest : list Q)
  (s0 : Moteus.State) (brest : list Reply) :
  exists rest,
    trace (snd (main_with a (fresh (tl :: t0 :: t1 :: crest)
                                   (Reply_ok s0 :: brest))))
    = EvStop
        :: EvSetPosition
             (snd (TorqueToPD_select (TorqueToPD_init a) 0.0 (t1 - t0)))
        :: rest
    /\ (arg_t_begin a <= 0 ->
        0 < arg_pd_begin a ->
        t0 <= t1 ->
        snd (TorqueToPD_select (TorqueToPD_init a) 0.0 (t1 - t0))
        = {| Moteus.position := None;
             Moteus.kp_scale := Some 0.0;
             Moteus.kd_scale := Some 0.0;
             Moteus.maximum_torque := Some (arg_maximum_torque a);
             Moteus.feedforward_torque := Some (arg_torque a);
             Moteus.query := true |})
    /\ (arg_pd_begin a <= 0 ->
        arg_t_begin a <= t1 - t0 ->
        t1 - t0 < arg_t_reset a ->
        snd (TorqueToPD_select (TorqueToPD_init a) 0.0 (t1 - t0))
        = {| Moteus.position := Some (arg_pd_target a);
             Moteus.kp_scale := Some (arg_kp_scale a);
             Moteus.kd_scale := Some (arg_kd_scale a);
             Moteus.maximum_torque := Some (arg_maximum_torque a);
             Moteus.feedforward_torque := None;
             Moteus.query := true |}).
Proof.
  destruct (main_with_trace a (fresh (tl :: t0 :: t1 :: crest)
                                     (Reply_ok s0 :: brest)))
    as (post & E & _).
  rewrite (main_try_loop a _ s0 brest tl t0 (t1 :: crest)) in E by reflexivity.
  cbn [length] in E.
  match type of E with
  | context [while_true (S ?n) ?l ?w] =>
      destruct (while_true_first_command n l w t1 crest eq_refl) as (evs & E')
  end.
  rewrite E' in E. cbn [trace fresh app] in E.
  exists (evs ++ post). split; [|split].
  - rewrite E. reflexivity.
  - intros Hb Hp Ht.
    rewrite select_feedforward_push; [reflexivity | | | reflexivity].
    + cbn [t_begin TorqueToPD_init].
      apply Qle_trans with 0; [exact Hb|].
      unfold Qminus. rewrite <- (Qplus_opp_r t0).
      apply Qplus_le_compat; [exact Ht | apply Qle_refl].
    + cbn [pd_begin TorqueToPD_init].
      apply Qle_lt_trans with 0; [|exact Hp]. discriminate.
  - intros Hp Hb Hr.
    rewrite select_position_target; [reflexivity | exact Hb | exact Hr |].
    left. cbn [pd_begin TorqueToPD_init].
    apply Qle_trans with 0; [exact Hp|]. discriminate.
Qed.

(** Both cases at work: with [pd_begin = 2.0] the run starts with a push
    although the actuator is at 2.7 already, and with [pd_begin = -1] it
    starts with position-target although the actuator is at -3. *)
Lemma first_command_from_position_zero_witness :
  (exists rest,
      trace (snd (main_with immediate_args
                    (fresh [0; 0; 0.1] [Reply_ok (at_position 2.7)])))
      = EvStop
          :: EvSetPosition
               {| Moteus.position := None;
                  Moteus.kp_scale := Some 0.0;
                  Moteus.kd_scale := Some 0.0;
                  Moteus.maximum_torque := Some 1.5;
                  Moteus.feedforward_torque := Some 1.5;
                  Moteus.query := true |}
          :: rest)
  /\ (exists rest,
        trace (snd (main_with
                      {| arg_t_begin := 0; arg_t_reset := 0.8;
                         arg_pd_begin := -(1); arg_pd_target := 2.5;
                         arg_torque := 1.5;
                         arg_kp_scale := default_kp_scale;
                         arg_kd_scale := default_kd_scale;
                         arg_maximum_torque := 1.5;
                         arg_termination_time := 1.2;
                         arg_reset_torque := default_reset_torque |}
                      (fresh [0; 0; 0.1] [Reply_ok (at_position (-(3)))])))
        = EvStop
            :: EvSetPosition
                 {| Moteus.position := Some 2.5;
                    Moteus.kp_scale := Some 1.0;
                    Moteus.kd_scale := Some 1.0;
                    Moteus.maximum_torque := Some 1.5;
                    Moteus.feedforward_torque := None;
                    Moteus.query := true |}
            :: rest).
Proof.
  split.
  - destruct (first_command_from_position_zero immediate_args 0 0 0.1 []
                (at_position 2.7) [])
      as (rest & E & Hpush & _).
    exists rest. rewrite E, Hpush; [reflexivity | | | ].
    + cbn. unfold Qle. cbn. lia.
    + reflexivity.
    + unfold Qle. cbn. lia.
  - destruct (first_command_from_position_zero
                {| arg_t_begin := 0; arg_t_reset := 0.8;
                   arg_pd_begin := -(1); arg_pd_target := 2.5;
                   arg_torque := 1.5;
                   arg_kp_scale := default_kp_scale;
                   arg_kd_scale := default_kd_scale;
                   arg_maximum_torque := 1.5;
                   arg_termination_time := 1.2;
                   arg_reset_torque := default_reset_torque |}
                0 0 0.1 [] (at_position (-(3))) [])
      as (rest & E & _ & Htarget).
    exists rest. rewrite E, Htarget; [reflexivity | | | ].
    + cbn. unfold Qle. cbn. lia.
    + cbn. unfold Qle. cbn. lia.
    + reflexivity.
Defined.

(** * Further properties *)

(** ** The selector *)

(** X1.  In the window [t_begin <= t < t_reset], once the position is at
    least [pd_begin] or the latch is set, the call sets the latch and sends
    position-target: target [pd_target], the configured kp_scale, kd_scale
    and maximum_torque, no feedforward torque, the query flag set. *)
Theorem position_target_in_window (self : TorqueToPD) (pos t : Q) :
  t_begin self <= t ->
  t < t_reset self ->
  pd_begin self <= pos \/ past_pd_threshold self = true ->
  TorqueToPD_select self pos t =
    (set_past_pd_threshold self true,
     {| Moteus.position := Some (pd_target self);
        Moteus.kp_scale := Some (kp_scale self);
        Moteus.kd_scale := Some (kd_scale self);
        Moteus.maximum_torque := Some (maximum_torque self);
        Moteus.feedforward_torque := None;
        Moteus.query := true |}).
Proof. intros Ht Hr Hg. now rewrite select_position_target. Qed.

Lemma position_target_in_window_witness :
  TorqueToPD_select (TorqueToPD_init main_args) 2.0 0.4
  = (set_past_pd_threshold (TorqueToPD_init main_args) true,
     {| Moteus.position := Some 2.5;
        Moteus.kp_scale := Some 1.0;
        Moteus.kd_scale := Some 1.0;
        Moteus.maximum_torque := Some 1.5;
        Moteus.feedforward_torque := None;
        Moteus.query := true |}).
Proof.
  apply (position_target_in_window (TorqueToPD_init main_args) 2.0 0.4).
  - cbn. unfold Qle. cbn. lia.
  - reflexivity.
  - left. cbn. unfold Qle. cbn. lia.
Defined.

(** X2.  Whatever the inputs and the latch, the command of a call asks for
    the state ([query]), carries a torque limit, which is maximum_torque or
    reset_torque, and carries kp and kd scales; it has a feedforward torque
    exactly when it has no target position. *)
Theorem every_command_is_limited (self : TorqueToPD) (pos t : Q) :
  let cmd := snd (TorqueToPD_select self pos t) in
  Moteus.query cmd = true
  /\ (Moteus.maximum_torque cmd = Some (maximum_torque self)
      \/ Moteus.maximum_torque cmd = Some (reset_torque self))
  /\ Moteus.kp_scale cmd <> None
  /\ Moteus.kd_scale cmd <> None
  /\ (Moteus.position cmd = None <-> Moteus.feedforward_torque cmd <> None).
Proof.
  unfold TorqueToPD_select.
  destruct (t <? t_begin self);
    [|destruct ((pos <? pd_begin self) && negb (past_pd_threshold self));
      [|destruct (t <? t_reset self)]];
    cbn;
    (split; [reflexivity|]); (split; [auto|]);
    (split; [discriminate|]); (split; [discriminate|]);
    (split;
     [ intro H; first [discriminate H | discriminate]
     | intro H; first [reflexivity | exfalso; apply H; reflexivity] ]).
Qed.

Lemma after_calls_fields (self : TorqueToPD) (inputs : list (Q * Q)) :
  t_begin (after_calls self inputs) = t_begin self
  /\ t_reset (after_calls self inputs) = t_reset self
  /\ pd_begin (after_calls self inputs) = pd_begin self
  /\ pd_target (after_calls self inputs) = pd_target self
  /\ torque (after_calls self inputs) = torque self
  /\ kp_scale (after_calls self inputs) = kp_scale self
  /\ kd_scale (after_calls self inputs) = kd_scale self
  /\ maximum_torque (after_calls self inputs) = maximum_torque self
  /\ reset_torque (after_calls self inputs) = reset_torque self
  /\ termination_time (after_calls self inputs) = termination_time self.
Proof.
  pose proof (after_calls_same_config inputs self) as H.
  unfold same_config, set_past_pd_threshold in H.
  injection H as -> -> -> -> -> -> -> -> -> ->.
  repeat split.
Qed.

(** X3.  Calls change nothing of the object but the latch: after any series
    of calls every parameter is what it was. *)
Theorem calls_keep_configuration (self : TorqueToPD) (inputs : list (Q * Q)) :
  let s := after_calls self inputs in
  t_begin s = t_begin self
  /\ t_reset s = t_reset self
  /\ pd_begin s = pd_begin self
  /\ pd_target s = pd_target self
  /\ torque s = torque self
  /\ kp_scale s = kp_scale self
  /\ kd_scale s = kd_scale self
  /\ maximum_torque s = maximum_torque self
  /\ reset_torque s = reset_torque self
  /\ termination_time s = termination_time self.
Proof. exact (after_calls_fields self inputs). Qed.

(** X4.  Outside the window, that is for [t < t_begin] or [t >= t_reset], a
    call leaves the object as it is: a series of such calls never sets the
    latch. *)
Theorem latch_moves_only_in_window (self : TorqueToPD) (inputs : list (Q * Q)) :
  Forall (fun i => snd i < t_begin self \/ t_reset self <= snd i) inputs ->
  after_calls self inputs = self.
Proof.
  induction inputs as [|i inputs IH]; intro H; [reflexivity|].
  inversion H as [|? ? Hi Hrest]; subst. cbn.
  destruct (select_object self (fst i) (snd i)) as [-> | (_ & _ & Hb & Hr & _)].
  - now apply IH.
  - exfalso. destruct Hi as [Hi | Hi].
    + exact (Qlt_not_le _ _ Hi Hb).
    + exact (Qlt_not_le _ _ Hr Hi).
Qed.

Lemma latch_moves_only_in_window_witness :
  after_calls (TorqueToPD_init main_args) [(2.5, 0.1); (2.5, 0.8); (2.5, 1.0)]
  = TorqueToPD_init main_args.
Proof.
  apply (latch_moves_only_in_window (TorqueToPD_init main_args)
           [(2.5, 0.1); (2.5, 0.8); (2.5, 1.0)]).
  apply Forall_cons; [left; reflexivity|].
  apply Forall_cons; [right; cbn; unfold Qle; cbn; lia|].
  apply Forall_cons; [right; cbn; unfold Qle; cbn; lia|].
  apply Forall_nil.
Defined.

(** X5.  A call repeated with the same inputs sends the same command and
    leaves the object as the first call left it: only the first of them can
    move the latch. *)
Theorem repeated_call_is_idempotent (self : TorqueToPD) (pos t : Q) :
  TorqueToPD_select (fst (TorqueToPD_select self pos t)) pos t
  = TorqueToPD_select self pos t.
Proof.
  unfold TorqueToPD_select at 2 3.
  destruct (t <? t_begin self) eqn:E1.
  { cbn [fst]. unfold TorqueToPD_select. now rewrite E1. }
  destruct ((pos <? pd_begin self) && negb (past_pd_threshold self)) eqn:E2.
  { cbn [fst]. unfold TorqueToPD_select. now rewrite E1, E2. }
  destruct (t <? t_reset self) eqn:E3.
  - cbn [fst]. unfold TorqueToPD_select. cbn.
    rewrite E1, E3. now rewrite andb_false_r.
  - cbn [fst]. unfold TorqueToPD_select. now rewrite E1, E2, E3.
Qed.

(** X6.  The push has no time limit of its own.  As long as no call has seen
    a position of [pd_begin] or more, the latch stays clear, and every call
    with [t >= t_begin] and [pos < pd_begin] sends feedforward-push, also
    when [t >= t_reset]. *)
Theorem push_lasts_below_threshold
  (a : InitArgs) (inputs : list (Q * Q)) (pos t : Q) :
  Forall (fun i => fst i < arg_pd_begin a) inputs ->
  pos < arg_pd_begin a ->
  arg_t_begin a <= t ->
  let s := after_calls (TorqueToPD_init a) inputs in
  past_pd_threshold s = false
  /\ TorqueToPD_select s pos t =
       (s,
        {| Moteus.position := None;
           Moteus.kp_scale := Some 0.0;
           Moteus.kd_scale := Some 0.0;
           Moteus.maximum_torque := Some (arg_maximum_torque a);
           Moteus.feedforward_torque := Some (arg_torque a);
           Moteus.query := true |}).
Proof.
  intros Hlow Hp Ht s.
  assert (Hl : past_pd_threshold s = false).
  { destruct (past_pd_threshold s) eqn:E; [|reflexivity].
    apply (after_calls_latch_origin inputs (TorqueToPD_init a) eq_refl) in E.
    apply Exists_exists in E. destruct E as (i & Hi & _ & _ & Hge).
    rewrite Forall_forall in Hlow. specialize (Hlow i Hi).
    cbn in Hge. exfalso. exact (Qlt_not_le _ _ Hlow Hge). }
  split; [exact Hl|].
  destruct (after_calls_fields (TorqueToPD_init a) inputs)
    as (Eb & _ & Ep & _ & Eq & _ & _ & Em & _).
  fold s in Eb, Ep, Eq, Em. cbn in Eb, Ep, Eq, Em.
  rewrite select_feedforward_push.
  - unfold feedforward_push. now rewrite Eq, Em.
  - now rewrite Eb.
  - now rewrite Ep.
  - exact Hl.
Qed.

Lemma push_lasts_below_threshold_witness :
  TorqueToPD_select
    (after_calls (TorqueToPD_init main_args) [(1.0, 0.5); (1.9, 0.9)]) 1.0 1.1
  = (after_calls (TorqueToPD_init main_args) [(1.0, 0.5); (1.9, 0.9)],
     {| Moteus.position := None;
        Moteus.kp_scale := Some 0.0;
        Moteus.kd_scale := Some 0.0;
        Moteus.maximum_torque := Some 1.5;
        Moteus.feedforward_torque := Some 1.5;
        Moteus.query := true |}).
Proof.
  refine (proj2 (push_lasts_below_threshold main_args
                   [(1.0, 0.5); (1.9, 0.9)] 1.0 1.1 _ _ _)).
  - apply Forall_cons; [reflexivity|].
    apply Forall_cons; [reflexivity|]. apply Forall_nil.
  - reflexivity.
  - cbn. unfold Qle. cbn. lia.
Defined.

(** ** The run, from stop to stop *)

(** X8.  When the stop that opens a run raises, the run reads no clock and
    sends no command: the [finally] block sends its stop and, that one
    answered, flushes the empty [data]; the caller gets the error of the
    first stop. *)
Theorem failed_first_stop
  (a : InitArgs) (ticks : list Q) (e : Exn) (s : Moteus.State)
  (rest : list Reply) :
  main_with a (fresh ticks (Reply_err e :: Reply_ok s :: rest))
  = (Raised e,
     {| clock := ticks; bus := rest;
        trace := [EvStop; EvStop; EvDump []]; data := [] |}).
Proof.
  rewrite main_with_unfold.
  rewrite (main_try_stop_raised a _ e (Reply_ok s :: rest)) by reflexivity.
  rewrite (main_finally_done _ s rest) by reflexivity.
  reflexivity.
Qed.

(** X9.  [data] belongs to the module, not to the run.  In any world, also
    one with samples and a trace from before, a run starts by sending a
    stop, only adds to the trace and to [data], and what it flushes, if it
    gets there, is all of [data]: the samples from before and its own. *)
Theorem run_only_appends (a : InitArgs) (w : World) :
  exists (post : list Event) (samples : list Sample),
    trace (snd (main_with a w)) = trace w ++ EvStop :: post
    /\ data (snd (main_with a w)) = data w ++ samples
    /\ (flushes post = [] \/ flushes post = [data w ++ samples]).
Proof.
  destruct (main_try_has_post a w)
    as (evs & samples & Ht & Hd & Hf & _).
  rewrite main_with_unfold.
  destruct (main_try a w) as [o w1]. cbn [fst snd] in Ht, Hd.
  assert (H : exists post,
             (let r := match main_finally w1 with
                       | (Done _, w2) => (o, w2)
                       | (Raised e, w2) => (Raised e, w2)
                       | (Starved, w2) => (Starved, w2)
                       end in
              trace (snd r) = trace w ++ EvStop :: post
              /\ data (snd r) = data w ++ samples)
             /\ (flushes post = [] \/ flushes post = [data w ++ samples])).
  { destruct (bus w1) as [|[s|e] rs] eqn:Hb.
    - rewrite main_finally_starved by assumption.
      exists (evs ++ [EvStop]). cbn. rewrite Ht, Hd, <- app_assoc. cbn.
      repeat split. left. now rewrite flushes_app, Hf.
    - rewrite (main_finally_done w1 s rs) by assumption.
      exists (evs ++ [EvStop; EvDump (data w1)]). cbn.
      rewrite Ht, <- app_assoc. cbn. rewrite Hd.
      repeat split. right. now rewrite flushes_app, Hf.
    - rewrite (main_finally_raised w1 e rs) by assumption.
      exists (evs ++ [EvStop]). cbn. rewrite Ht, Hd, <- app_assoc. cbn.
      repeat split. left. now rewrite flushes_app, Hf. }
  destruct o as [u|e|].
  - destruct H as (post & [H1 H2] & H3). exists post, samples.
    destruct (main_finally w1) as [[?| |] ?]; auto.
  - destruct H as (post & [H1 H2] & H3). exists post, samples.
    destruct (main_finally w1) as [[?| |] ?]; auto.
  - exists evs, samples. cbn. auto.
Qed.

Lemma stops_app (l1 l2 : list Event) :
  stops (l1 ++ l2) = (stops l1 + stops l2)%nat.
Proof. unfold stops. now rewrite filter_app, length_app. Qed.

(** The loop sends no stop. *)
Lemma while_true_stops (fuel : nat) :
  forall (l : Locals) (w : World),
    stops (trace (snd (while_true fuel l w))) = stops (trace w).
Proof.
  induction fuel as [|fuel IH]; intros l w; [reflexivity|].
  rewrite while_true_unfold.
  destruct (clock w) as [|now ts] eqn:Hc.
  { now rewrite loop_body_starved_clock by assumption. }
  destruct (bus w) as [|[s|e] rs] eqn:Hb.
  - rewrite (loop_body_starved_bus l w now ts) by assumption.
    cbn [snd trace]. rewrite stops_app. cbn. lia.
  - rewrite (loop_body_answered l w now ts s rs) by assumption.
    destruct (termination_time _ <? _).
    + cbn [snd trace]. rewrite stops_app. cbn. lia.
    + rewrite IH. cbn [snd trace]. rewrite stops_app. cbn. lia.
  - rewrite (loop_body_raised l w now ts e rs) by assumption.
    cbn [snd trace]. rewrite stops_app. cbn. lia.
Qed.

Lemma main_try_stops (a : InitArgs) (w : World) :
  stops (trace (snd (main_try a w))) = S (stops (trace w)).
Proof.
  destruct (bus w) as [|[s|e] rs] eqn:Hb.
  - rewrite main_try_stop_starved by assumption.
    cbn [snd trace emit]. rewrite stops_app. cbn. lia.
  - destruct (clock w) as [|tl [|t0 ts]] eqn:Hc.
    1,2: rewrite (main_try_clock_starved a w s rs)
      by (auto; rewrite Hc; cbn; lia);
      cbn [snd trace]; rewrite stops_app; cbn; lia.
    rewrite (main_try_loop a w s rs tl t0 ts) by assumption.
    rewrite while_true_stops. cbn [snd trace]. rewrite stops_app. cbn. lia.
  - rewrite (main_try_stop_raised a w e rs) by assumption.
    cbn [snd trace]. rewrite stops_app. cbn. lia.
Qed.

(** X10.  A run that ends, by return or by error, has sent exactly two stops:
    the one that opens it and the one of the [finally] block; the loop sends
    none. *)
Theorem two_stops_a_run (a : InitArgs) (w : World) :
  fst (main_with a w) <> Starved ->
  stops (trace (snd (main_with a w))) = (stops (trace w) + 2)%nat.
Proof.
  intro H. pose proof (main_try_stops a w) as Hs.
  rewrite main_with_unfold in *.
  destruct (main_try a w) as [o w1]. cbn [snd] in Hs.
  assert (G : forall o' : Outcome unit,
             fst (match main_finally w1 with
                  | (Done _, w2) => (o', w2)
                  | (Raised e, w2) => (Raised e, w2)
                  | (Starved, w2) => (Starved, w2)
                  end) <> Starved ->
             stops (trace (snd (match main_finally w1 with
                                | (Done _, w2) => (o', w2)
                                | (Raised e, w2) => (Raised e, w2)
                                | (Starved, w2) => (Starved, w2)
                                end))) = (stops (trace w) + 2)%nat).
  { intros o' H'.
    destruct (bus w1) as [|[s|e] rs] eqn:Hb.
    - rewrite main_finally_starved in H' by assumption. now contradiction H'.
    - rewrite (main_finally_done w1 s rs) by assumption.
      cbn [snd trace]. rewrite stops_app, Hs. cbn. lia.
    - rewrite (main_finally_raised w1 e rs) by assumption.
      cbn [snd trace]. rewrite stops_app, Hs. cbn. lia. }
  destruct o as [u|e|].
  - now apply G.
  - now apply G.
  - now contradiction H.
Qed.

Lemma two_stops_a_run_witness :
  stops (trace (snd (main_with main_args
           (fresh [0; 0; 0.5; 1.3]
              [Reply_ok (at_position 0); Reply_ok (at_position 0);
               Reply_ok (at_position 0); Reply_ok (at_position 0)]))))
  = 2%nat.
Proof.
  apply (two_stops_a_run main_args
           (fresh [0; 0; 0.5; 1.3]
              [Reply_ok (at_position 0); Reply_ok (at_position 0);
               Reply_ok (at_position 0); Reply_ok (at_position 0)])).
  vm_compute. discriminate.
Defined.

(** ** What the loop feeds back, and what it leaves in [data] *)

(** X11.  From the second iteration on the selector gets the position the
    actuator reported in the iteration before: when the first iteration is
    answered with [s1] and stays within the deadline, the run prints the
    position of [s1], with the period measured from the first clock reading,
    and its second command is the selector's choice for that position, the
    second [time_since_start] and the object the first call left. *)
Theorem second_command_from_reported_position
  (a : InitArgs) (tl t0 t1 t2 : Q) (crest : list Q)
  (s0 s1 : Moteus.State) (brest : list Reply) :
  t1 - t0 <= arg_termination_time a ->
  exists rest,
    trace (snd (main_with a (fresh (tl :: t0 :: t1 :: t2 :: crest)
                                   (Reply_ok s0 :: Reply_ok s1 :: brest))))
    = EvStop
        :: EvSetPosition
             (snd (TorqueToPD_select (TorqueToPD_init a) 0.0 (t1 - t0)))
        :: EvPrint (Moteus.POSITION s1) (t1 - tl) (filter_update 0 (t1 - tl))
        :: EvSetPosition
             (snd (TorqueToPD_select
                     (fst (TorqueToPD_select (TorqueToPD_init a) 0.0 (t1 - t0)))
                     (Moteus.POSITION s1) (t2 - t0)))
        :: rest.
Proof.
  intro Hin.
  destruct (main_with_trace a (fresh (tl :: t0 :: t1 :: t2 :: crest)
                                     (Reply_ok s0 :: Reply_ok s1 :: brest)))
    as (post & E & _).
  rewrite (main_try_loop a _ s0 (Reply_ok s1 :: brest) tl t0 (t1 :: t2 :: crest))
    in E by reflexivity.
  cbn [length] in E. rewrite while_true_unfold in E.
  rewrite (loop_body_answered _ _ t1 (t2 :: crest) s1 brest) in E
    by reflexivity.
  rewrite next_locals_termination_time in E.
  cbn [timestamp_begin_loop initial_locals torque_to_pd termination_time
       TorqueToPD_init] in E.
  apply Qltb_ge in Hin. rewrite Hin in E.
  match type of E with
  | context [while_true (S ?n) ?l ?w] =>
      destruct (while_true_first_command n l w t2 crest eq_refl) as (evs & E')
  end.
  rewrite E' in E. cbn [trace fresh app] in E.
  exists (evs ++ post). rewrite E.
  rewrite <- !app_assoc. reflexivity.
Qed.

Lemma second_command_from_reported_position_witness :
  exists rest,
    trace (snd (main_with immediate_args
                  (fresh [0; 0; 0.1; 0.2]
                         [Reply_ok (at_position 0); Reply_ok (at_position 2.2)])))
    = EvStop
        :: EvSetPosition
             (snd (TorqueToPD_select (TorqueToPD_init immediate_args) 0.0 (0.1 - 0)))
        :: EvPrint 2.2 (0.1 - 0) (filter_update 0 (0.1 - 0))
        :: EvSetPosition
             (snd (TorqueToPD_select
                     (fst (TorqueToPD_select (TorqueToPD_init immediate_args)
                             0.0 (0.1 - 0)))
                     2.2 (0.2 - 0)))
        :: rest.
Proof.
  apply (second_command_from_reported_position immediate_args 0 0 0.1 0.2 []
           (at_position 0) (at_position 2.2) []).
  cbn. unfold Qle. cbn. lia.
Defined.

(** A loop whose clock stays within the deadline for the readings [ts], all
    answered, and whose next exchange raises, ends with that error; the
    samples of [ts] are in [data]. *)
Lemma while_true_until_failure (ts : list Q) :
  forall (fuel : nat) (l : Locals) (w : World) (tk : Q) (crest : list Q)
         (states : list Moteus.State) (e : Exn) (brest : list Reply),
    (length ts < fuel)%nat ->
    clock w = ts ++ tk :: crest ->
    bus w = map Reply_ok states ++ Reply_err e :: brest ->
    length states = length ts ->
    Forall (fun t => t - timestamp_begin_loop l <= termination_time (torque_to_pd l)) ts ->
    exists tr,
      while_true fuel l w =
        (Raised e,
         {| clock := crest; bus := brest; trace := trace w ++ tr;
            data := data w ++
                    combine (map (fun t => t - timestamp_begin_loop l) ts) states |})
      /\ commands tr = S (length ts)
      /\ flushes tr = [].
Proof.
  induction ts as [|t ts IH];
    intros fuel l w tk crest states e brest Hfuel Hc Hb Hlen Hin.
  - destruct states; [|discriminate Hlen].
    destruct fuel as [|fuel]; [cbn in Hfuel; lia|].
    cbn in Hc, Hb. rewrite while_true_unfold.
    rewrite (loop_body_raised l w tk crest e brest) by assumption.
    exists [EvSetPosition (iteration_command l tk)].
    cbn [map combine]. rewrite app_nil_r. split; [reflexivity|]. now split.
  - destruct states as [|s states]; [discriminate Hlen|].
    destruct fuel as [|fuel]; [cbn in Hfuel; lia|].
    cbn in Hc, Hb, Hlen. injection Hlen as Hlen.
    inversion Hin as [|? ? Ht Hin']; subst.
    rewrite while_true_unfold.
    rewrite (loop_body_answered l w t (ts ++ tk :: crest) s
               (map Reply_ok states ++ Reply_err e :: brest)) by assumption.
    rewrite next_locals_termination_time.
    apply Qltb_ge in Ht. rewrite Ht.
    match goal with
    | |- context [while_true fuel ?l' ?w'] =>
        destruct (IH fuel l' w' tk crest states e brest) as (tr & E & Hn & Hf)
    end.
    + cbn in Hfuel. lia.
    + reflexivity.
    + reflexivity.
    + exact Hlen.
    + rewrite next_locals_termination_time. exact Hin'.
    + exists (iteration_events l t s ++ tr). split; [|split].
      * rewrite E. cbn [data trace timestamp_begin_loop next_locals].
        rewrite <- !app_assoc. reflexivity.
      * rewrite commands_app, commands_iteration_events, Hn. reflexivity.
      * rewrite flushes_app, Hf. reflexivity.
Qed.

(** X12.  When the loop fails at an iteration, the samples of the iterations
    before it are what [data] holds and, the last stop answered, what is
    flushed: one per answered reading, stamped with its [time_since_start]
    and in order; the iteration that failed leaves no sample.  The error that
    reaches the caller is the one the transport raised. *)
Theorem failure_keeps_earlier_samples
  (a : InitArgs) (tl t0 : Q) (ts : list Q) (tk : Q) (crest : list Q)
  (s0 : Moteus.State) (states : list Moteus.State) (e : Exn)
  (sf : Moteus.State) (brest : list Reply) :
  length states = length ts ->
  Forall (fun t => t - t0 <= arg_termination_time a) ts ->
  exists tr,
    main_with a (fresh (tl :: t0 :: ts ++ tk :: crest)
                   (Reply_ok s0 :: map Reply_ok states
                      ++ Reply_err e :: Reply_ok sf :: brest))
    = (Raised e,
       {| clock := crest; bus := brest;
          trace := tr ++ [EvStop;
                          EvDump (combine (map (fun t => t - t0) ts) states)];
          data := combine (map (fun t => t - t0) ts) states |})
    /\ commands tr = S (length ts)
    /\ flushes tr = [].
Proof.
  intros Hlen Hin.
  rewrite main_with_unfold.
  rewrite (main_try_loop a _ s0
             (map Reply_ok states ++ Reply_err e :: Reply_ok sf :: brest)
             tl t0 (ts ++ tk :: crest)) by reflexivity.
  match goal with
  | |- context [while_true ?n ?l ?w] =>
      destruct (while_true_until_failure ts n l w tk crest states e
                  (Reply_ok sf :: brest))
        as (tr & E & Hn & Hf)
  end; try assumption; try reflexivity.
  - rewrite length_app. cbn. lia.
  - rewrite E.
    rewrite (main_finally_done _ sf brest) by reflexivity.
    cbn [trace data clock fresh app timestamp_begin_loop initial_locals].
    exists (EvStop :: tr). split; [reflexivity|]. split.
    + unfold commands in *. cbn. exact Hn.
    + cbn. exact Hf.
Qed.

Lemma failure_keeps_earlier_samples_witness :
  exists tr,
    main_with main_args
      (fresh [0; 0; 0.1; 0.2; 0.3]
         [Reply_ok (at_position 0); Reply_ok (at_position 0.5);
          Reply_ok (at_position 0.6); Reply_err (TransportError 3);
          Reply_ok (at_position 0)])
    = (Raised (TransportError 3),
       {| clock := []; bus := [];
          trace := tr ++ [EvStop;
                          EvDump [(0.1 - 0, at_position 0.5);
                                  (0.2 - 0, at_position 0.6)]];
          data := [(0.1 - 0, at_position 0.5); (0.2 - 0, at_position 0.6)] |})
    /\ commands tr = 3%nat
    /\ flushes tr = [].
Proof.
  apply (failure_keeps_earlier_samples main_args 0 0 [0.1; 0.2] 0.3 []
           (at_position 0) [at_position 0.5; at_position 0.6]
           (TransportError 3) (at_position 0) []).
  - reflexivity.
  - repeat constructor; cbn; unfold Qle; cbn; lia.
Defined.

(** The [finally] block leaves [data] alone, and a run returns only if its
    [try] block did. *)
Lemma main_with_data (a : InitArgs) (w : World) :
  data (snd (main_with a w)) = data (snd (main_try a w)).
Proof.
  rewrite main_with_unfold.
  destruct (main_try a w) as [o w1]. cbn [snd].
  assert (H : forall o' : Outcome unit,
             data (snd (match main_finally w1 with
                        | (Done _, w2) => (o', w2)
                        | (Raised e, w2) => (Raised e, w2)
                        | (Starved, w2) => (Starved, w2)
                        end)) = data w1).
  { intro o'. destruct (bus w1) as [|[s|e] rs] eqn:Hb.
    - now rewrite main_finally_starved by assumption.
    - now rewrite (main_finally_done w1 s rs) by assumption.
    - now rewrite (main_finally_raised w1 e rs) by assumption. }
  destruct o; auto.
Qed.

Lemma main_with_returns (a : InitArgs) (w : World) :
  fst (main_with a w) = Done tt -> fst (main_try a w) = Done tt.
Proof.
  rewrite main_with_unfold.
  destruct (main_try a w) as [[[]|e|] w1]; cbn [fst]; intro H.
  - reflexivity.
  - destruct (main_finally w1) as [[?| |] ?]; discriminate H.
  - discriminate H.
Qed.

(** A loop that returns has just stored a sample past the deadline; the
    samples it stored before are within it. *)
Lemma while_true_returns (fuel : nat) :
  forall (l : Locals) (w : World),
    fst (while_true fuel l w) = Done tt ->
    exists (samples : list Sample) (t : Q) (s : Moteus.State),
      data (snd (while_true fuel l w)) = data w ++ samples ++ [(t, s)]
      /\ termination_time (torque_to_pd l) < t
      /\ Forall (fun x => fst x <= termination_time (torque_to_pd l)) samples.
Proof.
  induction fuel as [|fuel IH]; intros l w H; [discriminate H|].
  rewrite while_true_unfold in *.
  destruct (clock w) as [|now ts] eqn:Hc.
  { rewrite loop_body_starved_clock in H by assumption. discriminate H. }
  destruct (bus w) as [|[s|e] rs] eqn:Hb.
  - rewrite (loop_body_starved_bus l w now ts) in H by assumption.
    discriminate H.
  - rewrite (loop_body_answered l w now ts s rs) in * by assumption.
    rewrite next_locals_termination_time in *.
    destruct (termination_time (torque_to_pd l) <? now - timestamp_begin_loop l)
      eqn:E.
    + exists [], (now - timestamp_begin_loop l), s. cbn.
      split; [reflexivity|]. split; [now apply Qltb_lt | constructor].
    + destruct (IH _ _ H) as (samples & t & s' & Hd & Ht & Hin).
      rewrite next_locals_termination_time in Ht, Hin.
      exists ((now - timestamp_begin_loop l, s) :: samples), t, s'.
      split; [|split].
      * rewrite Hd. cbn [data]. rewrite <- app_assoc. reflexivity.
      * exact Ht.
      * constructor; [|exact Hin]. cbn. now apply Qltb_ge.
  - rewrite (loop_body_raised l w now ts e rs) in H by assumption.
    discriminate H.
Qed.

(** X13.  The only way for a run to return is to pass the deadline: when a
    run returns, the last sample of [data] has a [time_since_start] greater
    than [termination_time], and every sample before it has one that is
    not. *)
Theorem return_only_past_deadline
  (a : InitArgs) (ticks : list Q) (replies : list Reply) :
  fst (main_with a (fresh ticks replies)) = Done tt ->
  exists (samples : list Sample) (t : Q) (s : Moteus.State),
    data (snd (main_with a (fresh ticks replies))) = samples ++ [(t, s)]
    /\ arg_termination_time a < t
    /\ Forall (fun x => fst x <= arg_termination_time a) samples.
Proof.
  intro H. apply main_with_returns in H. rewrite main_with_data.
  destruct replies as [|[s0|e] rs].
  - rewrite main_try_stop_starved in H by reflexivity. discriminate H.
  - destruct ticks as [|tl [|t0 ts]].
    1,2: rewrite (main_try_clock_starved a _ s0 rs) in H
      by (auto; cbn; lia); discriminate H.
    rewrite (main_try_loop a _ s0 rs tl t0 ts) in * by reflexivity.
    destruct (while_true_returns _ _ _ H) as (samples & t & s & Hd & Ht & Hin).
    exists samples, t, s. rewrite Hd. auto.
  - rewrite (main_try_stop_raised a _ e rs) in H by reflexivity.
    discriminate H.
Qed.

Lemma return_only_past_deadline_witness :
  exists (samples : list Sample) (t : Q) (s : Moteus.State),
    data (snd (main_with main_args
                 (fresh [0; 0; 0.5; 1.3]
                    [Reply_ok (at_position 0); Reply_ok (at_position 0);
                     Reply_ok (at_position 0); Reply_ok (at_position 0)])))
    = samples ++ [(t, s)]
    /\ 1.2 < t
    /\ Forall (fun x => fst x <= 1.2) samples.
Proof.
  apply (return_only_past_deadline main_args [0; 0; 0.5; 1.3]
           [Reply_ok (at_position 0); Reply_ok (at_position 0);
            Reply_ok (at_position 0); Reply_ok (at_position 0)]).
  reflexivity.
Defined.

(** What an unfolded loop stamps: the samples with the elapsed times of the
    readings it used, the printed lines with the differences between
    them. *)
Lemma while_true_stamps (fuel : nat) :
  forall (l : Locals) (w : World),
    exists (evs : list Event) (samples : list Sample) (n : nat),
      trace (snd (while_true fuel l w)) = trace w ++ evs
      /\ data (snd (while_true fuel l w)) = data w ++ samples
      /\ map fst samples
         = map (fun t => t - timestamp_begin_loop l) (firstn n (clock w))
      /\ map fst (periods evs) = firstn n (diffs (last_time l) (clock w))
      /\ map (fun x => Moteus.POSITION (snd x)) samples = positions evs
      /\ length samples = n.
Proof.
  induction fuel as [|fuel IH]; intros l w.
  - exists [], [], 0%nat. cbn. now rewrite !app_nil_r.
  - rewrite while_true_unfold.
    destruct (clock w) as [|now ts] eqn:Hc.
    { rewrite loop_body_starved_clock by assumption.
      exists [], [], 0%nat. cbn. now rewrite !app_nil_r. }
    destruct (bus w) as [|[s|e] rs] eqn:Hb.
    + rewrite (loop_body_starved_bus l w now ts) by assumption.
      exists [EvSetPosition (iteration_command l now)], [], 0%nat.
      cbn. now rewrite !app_nil_r.
    + rewrite (loop_body_answered l w now ts s rs) by assumption.
      destruct (termination_time _ <? _).
      * exists (iteration_events l now s),
               [(now - timestamp_begin_loop l, s)], 1%nat.
        cbn. auto 10.
      * match goal with
        | |- context [while_true fuel ?l' ?w'] =>
            destruct (IH l' w')
              as (evs & samples & n & Ht & Hd & Hs & Hp & Hq & Hn)
        end.
        cbn [trace data clock last_time timestamp_begin_loop next_locals]
          in Ht, Hd, Hs, Hp.
        exists (iteration_events l now s ++ evs),
               ((now - timestamp_begin_loop l, s) :: samples), (S n).
        rewrite Ht, Hd, <- !app_assoc. cbn.
        rewrite Hs, Hp, Hq, Hn. auto 10.
    + rewrite (loop_body_raised l w now ts e rs) by assumption.
      exists [EvSetPosition (iteration_command l now)], [], 0%nat.
      cbn. now rewrite !app_nil_r.
Qed.

Lemma periods_nil_positions (l : list Event) :
  periods l = [] -> positions l = [].
Proof.
  induction l as [|[| | |] l IH]; cbn; auto. discriminate.
Qed.

Lemma positions_app (l1 l2 : list Event) :
  positions (l1 ++ l2) = positions l1 ++ positions l2.
Proof.
  induction l1 as [|[| | |] l1 IH]; cbn; auto. now rewrite IH.
Qed.

(** X14.  The time stamps of a run are differences of clock readings.  Of
    the readings [ts] that follow the two taken before the loop, the run uses
    the first [n], one per answered iteration: the samples carry their
    distances from the second reading, [t0]; the printed periods are the
    distances between successive readings, the first one measured from the
    first reading, [tl], not from [t0]; and the printed positions are those
    of the samples. *)
Theorem samples_are_stamped
  (a : InitArgs) (tl t0 : Q) (ts : list Q) (s0 : Moteus.State)
  (replies : list Reply) :
  let w' := snd (main_with a (fresh (tl :: t0 :: ts) (Reply_ok s0 :: replies))) in
  exists n : nat,
    map fst (data w') = map (fun t => t - t0) (firstn n ts)
    /\ map fst (periods (trace w')) = firstn n (diffs tl ts)
    /\ map (fun x => Moteus.POSITION (snd x)) (data w') = positions (trace w')
    /\ length (data w') = n.
Proof.
  intro w'. subst w'.
  destruct (main_with_trace a (fresh (tl :: t0 :: ts) (Reply_ok s0 :: replies)))
    as (post & -> & Hp & _).
  rewrite main_with_data.
  rewrite (main_try_loop a _ s0 replies tl t0 ts) by reflexivity.
  match goal with
  | |- context [while_true ?k ?l ?w] =>
      destruct (while_true_stamps k l w)
        as (evs & samples & n & -> & -> & Hs & Hq & Hpos & Hn)
  end.
  cbn [trace data fresh app clock last_time timestamp_begin_loop initial_locals
       periods positions] in *.
  exists n.
  rewrite periods_app, positions_app, Hp, (periods_nil_positions post Hp).
  rewrite !app_nil_r.
  repeat split; auto.
Qed.

(** ** Every command of a run *)

Lemma sent_app (l1 l2 : list Event) : sent (l1 ++ l2) = sent l1 ++ sent l2.
Proof.
  induction l1 as [|[| | |] l1 IH]; cbn; auto. now rewrite IH.
Qed.

Lemma commands_zero_sent (l : list Event) : commands l = 0%nat -> sent l = [].
Proof.
  induction l as [|[| | |] l IH]; cbn; auto. discriminate.
Qed.

Lemma select_within_limits (a : InitArgs) (s : TorqueToPD) (pos t : Q) :
  same_config (TorqueToPD_init a) s ->
  within_limits a (snd (TorqueToPD_select s pos t)).
Proof.
  intro H. unfold same_config, set_past_pd_threshold in H. cbn in H.
  injection H as _ _ _ _ _ _ _ Hm Hr _.
  unfold within_limits, TorqueToPD_select.
  destruct (t <? t_begin s);
    [|destruct ((pos <? pd_begin s) && negb (past_pd_threshold s));
      [|destruct (t <? t_reset s)]];
    cbn; rewrite ?Hm, ?Hr; auto.
Qed.

Lemma while_true_sent (a : InitArgs) (fuel : nat) :
  forall (l : Locals) (w : World),
    same_config (TorqueToPD_init a) (torque_to_pd l) ->
    exists evs,
      trace (snd (while_true fuel l w)) = trace w ++ evs
      /\ Forall (within_limits a) (sent evs).
Proof.
  induction fuel as [|fuel IH]; intros l w Hl.
  - exists []. cbn. now rewrite app_nil_r.
  - assert (Hcmd : forall now, within_limits a (iteration_command l now))
      by (intro now; now apply select_within_limits).
    rewrite while_true_unfold.
    destruct (clock w) as [|now ts] eqn:Hc.
    { rewrite loop_body_starved_clock by assumption.
      exists []. cbn. now rewrite app_nil_r. }
    destruct (bus w) as [|[s|e] rs] eqn:Hb.
    + rewrite (loop_body_starved_bus l w now ts) by assumption.
      exists [EvSetPosition (iteration_command l now)]. cbn. auto.
    + rewrite (loop_body_answered l w now ts s rs) by assumption.
      destruct (termination_time _ <? _).
      * exists (iteration_events l now s). cbn. auto.
      * match goal with
        | |- context [while_true fuel ?l' ?w'] =>
            destruct (IH l' w') as (evs & Ht & Hs)
        end.
        { cbn [torque_to_pd next_locals]. unfold same_config in *.
          rewrite <- Hl. apply select_same_config. }
        exists (iteration_events l now s ++ evs).
        rewrite Ht. cbn [trace]. rewrite <- app_assoc.
        split; [reflexivity|]. cbn. auto.
    + rewrite (loop_body_raised l w now ts e rs) by assumption.
      exists [EvSetPosition (iteration_command l now)]. cbn. auto.
Qed.

(** X16.  Whatever the clock reads and the actuator answers, every command a
    run sends asks for the state and carries as torque limit one of the two
    limits [main] was given, maximum_torque or reset_torque. *)
Theorem run_commands_within_limits
  (a : InitArgs) (ticks : list Q) (replies : list Reply) :
  Forall (fun cmd =>
            Moteus.query cmd = true
            /\ (Moteus.maximum_torque cmd = Some (arg_maximum_torque a)
                \/ Moteus.maximum_torque cmd = Some (arg_reset_torque a)))
         (sent (trace (snd (main_with a (fresh ticks replies))))).
Proof.
  change (Forall (within_limits a)
            (sent (trace (snd (main_with a (fresh ticks replies)))))).
  destruct (main_with_trace a (fresh ticks replies)) as (post & -> & _ & Hp).
  rewrite sent_app, (commands_zero_sent post Hp), app_nil_r.
  destruct replies as [|[s0|e] rs].
  - rewrite main_try_stop_starved by reflexivity. constructor.
  - destruct ticks as [|tl [|t0 ts]].
    1,2: rewrite (main_try_clock_starved a _ s0 rs) by (auto; cbn; lia);
      constructor.
    rewrite (main_try_loop a _ s0 rs tl t0 ts) by reflexivity.
    match goal with
    | |- context [while_true ?k ?l ?w] =>
        destruct (while_true_sent a k l w) as (evs & -> & Hs)
    end; [reflexivity|].
    cbn [trace fresh app sent]. exact Hs.
  - rewrite (main_try_stop_raised a _ e rs) by reflexivity. constructor.
Qed.

(** ** move_waypoints *)

(** X17.  [move_waypoints] sends one command, whatever comes back: a target
    position with the three given parameters, no feedforward torque, and no
    request for the state.  The target is [POS_0] before [TIME_1], [POS_1]
    from [TIME_1] until [TIME_2], and [POS_END] from then on. *)
Theorem move_waypoints_schedule (k : Waypoints) (t : Q) (w : World) :
  exists p : Q,
    trace (snd (move_waypoints k t w))
    = trace w ++
      [EvSetPosition
         {| Moteus.position := Some p;
            Moteus.kp_scale := Some (wp_kp_scale k);
            Moteus.kd_scale := Some (wp_kd_scale k);
            Moteus.maximum_torque := Some (wp_maximum_torque k);
            Moteus.feedforward_torque := None;
            Moteus.query := false |}]
    /\ (t < TIME_1 k -> p = POS_0 k)
    /\ (TIME_1 k <= t -> t < TIME_2 k -> p = POS_1 k)
    /\ (TIME_1 k <= t -> TIME_2 k <= t -> p = POS_END k).
Proof.
  exists (pos_command k t). split.
  - unfold move_waypoints, set_position, exchange, emit.
    destruct (bus w) as [|[s|e] rs]; reflexivity.
  - unfold pos_command. split; [|split].
    + intro H. apply Qltb_lt in H. now rewrite H.
    + intros H1 H2. apply Qltb_ge in H1. apply Qltb_lt in H2.
      now rewrite H1, H2.
    + intros H1 H2. apply Qltb_ge in H1. apply Qltb_ge in H2.
      now rewrite H1, H2.
Qed.

Lemma move_waypoints_schedule_witness :
  exists p : Q,
    trace (snd (move_waypoints default_waypoints 1.5 (fresh [] [])))
    = [EvSetPosition
         {| Moteus.position := Some p;
            Moteus.kp_scale := Some 0.3;
            Moteus.kd_scale := Some 0.008;
            Moteus.maximum_torque := Some 1.0;
            Moteus.feedforward_torque := None;
            Moteus.query := false |}]
    /\ p = 3.0.
Proof.
  destruct (move_waypoints_schedule default_waypoints 1.5 (fresh [] []))
    as (p & Ht & _ & Hmid & _).
  exists p. split; [exact Ht|].
  apply Hmid.
  - cbn. unfold Qle. cbn. lia.
  - reflexivity.
Defined.

(** X18.  The test of [TIME_1] comes first.  Where [TIME_2 <= TIME_1] the
    middle waypoint is never commanded: the target is [POS_0] before [TIME_1]
    and [POS_END] from then on. *)
Theorem middle_waypoint_skipped (k : Waypoints) (t : Q) :
  TIME_2 k <= TIME_1 k ->
  pos_command k t = (if t <? TIME_1 k then POS_0 k else POS_END k).
Proof.
  intro H. unfold pos_command.
  destruct (t <? TIME_1 k) eqn:E1; [reflexivity|].
  apply Qltb_ge in E1.
  assert (E2 : (t <? TIME_2 k) = false)
    by (apply Qltb_ge; exact (Qle_trans _ _ _ H E1)).
  now rewrite E2.
Qed.

Lemma middle_waypoint_skipped_witness :
  pos_command
    {| wp_kp_scale := 0.3; wp_kd_scale := 0.008; wp_maximum_torque := 1.0;
       POS_0 := 0.0; TIME_1 := 2.0; POS_1 := 3.0; TIME_2 := 1.0;
       POS_END := 0.5 |} 2.5
  = 0.5.
Proof.
  apply (middle_waypoint_skipped
           {| wp_kp_scale := 0.3; wp_kd_scale := 0.008; wp_maximum_torque := 1.0;
              POS_0 := 0.0; TIME_1 := 2.0; POS_1 := 3.0; TIME_2 := 1.0;
              POS_END := 0.5 |} 2.5).
  cbn. unfold Qle. cbn. lia.
Defined.
